(** * graphql_ws: the subscription server and its aiohttp binding

    A shallow embedding of [graphql_ws/server.py] and [graphql_ws/aiohttp.py].

    The server is a set of coroutines that share one connection context and
    run on one cooperative event loop.  Each coroutine is cut where it can be
    suspended for long: before its first step, in [await self.on_connect],
    in the [await] on the execution engine, and in the [await] of
    [async for] on the next value of a result sequence.  A task is a program
    counter at one of these points; the event loop resumes one task at a time
    with what the awaited call delivers, and what the task does up to its
    next such point is one transition of the state.  The awaits on the
    connection ([send], [close]), on [aclose] and on [on_operation_complete]
    are taken as immediate: they are recorded in the order of the calls.

    What the server does to the outside (messages handed to
    [connection_context.send], close codes, calls of the hooks and of the
    execution engine, [aclose] on a result sequence) is appended to a trace,
    tagged with the task that did it.  Cancellation is that of asyncio since
    Python 3.8: [CancelledError] is raised in the task where it waits and is
    not an [Exception]. *)

From stdpp Require Import strings list.

Open Scope string_scope.
Open Scope list_scope.
Set Warnings "-register-all".

(** ** Python values *)

(** The JSON-shaped Python values that travel in payloads. *)
Inductive pyval :=
| PNone
| PBool (b : bool)
| PInt (n : Z)
| PStr (s : string)
| PList (l : list pyval)
| PDict (d : list (string * pyval)).

(** A [dict] with string keys, in insertion order (what [json.dumps] walks). *)
Definition dict := list (string * pyval).

(** [d[k]] as [d.get(k)]. *)
Fixpoint getitem (d : dict) (k : string) : option pyval :=
  match d with
  | [] => None
  | (k', v) :: d' => if String.eqb k' k then Some v else getitem d' k
  end.

(** [d[k] = v]: overwrite in place, or append a new key. *)
Fixpoint setitem (d : dict) (k : string) (v : pyval) : dict :=
  match d with
  | [] => [(k, v)]
  | (k', v') :: d' =>
      if String.eqb k' k then (k, v) :: d' else (k', v') :: setitem d' k v
  end.

(** [x is None]. *)
Definition is_none (v : pyval) : bool :=
  match v with PNone => true | _ => false end.

(** Truth value of [if v:]. *)
Definition truthy (v : pyval) : bool :=
  match v with
  | PNone => false
  | PBool b => b
  | PInt n => negb (n =? 0)%Z
  | PStr s => negb (String.eqb s EmptyString)
  | PList l => match l with [] => false | _ => true end
  | PDict d => match d with [] => false | _ => true end
  end.

(** An exception instance, as far as the server looks at it: [str(e)]. *)
Inductive Exception := Exc (message : string).

Definition str (e : Exception) : string :=
  match e with Exc message => message end.

(** ** graphql_ws.protocol *)

Module protocol.

(** Modelled from the spec: graphql_ws/protocol.py is not among the sources.
    §3 gives the closed enumeration of message types and §6 the wire value
    of each. *)
Inductive GQLMsgType :=
| CONNECTION_INIT
| CONNECTION_ACK
| SUBSCRIBE
| NEXT
| ERROR
| COMPLETE
| PING
| PONG.

Definition value (t : GQLMsgType) : string :=
  match t with
  | CONNECTION_INIT => "connection_init"
  | CONNECTION_ACK => "connection_ack"
  | SUBSCRIBE => "subscribe"
  | NEXT => "next"
  | ERROR => "error"
  | COMPLETE => "complete"
  | PING => "ping"
  | PONG => "pong"
  end.

(** Modelled from the spec: the two close codes of graphql_ws/protocol.py.
    §4.4 and §6 reserve one code for an internal or initialisation failure
    and a distinct one for a duplicate operation id; their numeric values
    are not given. *)
Inductive close_code :=
| WS_INTERNAL_ERROR
| WS_ERROR_ID_ALREADY_EXISTS.

(** Modelled from the spec: the parsed payload of a message (§3,
    SubscribePayload).  [document] is the parse of [source] and is what the
    subscribe entry of the engine is given. *)
Record OperationMessagePayload := {
  source : string;
  operation_name : option string;
  variable_values : pyval;
  has_subscription_operation : bool
}.

End protocol.

(** Modelled from the spec: the decoded envelope of graphql_ws/protocol.py
    (§3, Envelope): a type, an optional id, an optional payload. *)
Module OperationMessage.
Record t := make {
  type : protocol.GQLMsgType;
  id : option string;
  payload : option protocol.OperationMessagePayload
}.
End OperationMessage.

(** ** graphql.ExecutionResult *)

(** [data] is [None] or a dict; [errors] is [None] or a list of errors. *)
Module ExecutionResult.
Record t {GraphQLError : Type} := make {
  data : pyval;
  errors : option (list GraphQLError)
}.
Arguments t : clear implicits.
Arguments make {GraphQLError} data errors.
End ExecutionResult.

(** ** graphql_ws.aiohttp *)

Module aiohttp.

(** [aiohttp.WSMsgType]. *)
Inductive WSMsgType :=
| CONTINUATION
| TEXT
| BINARY
| PING
| PONG
| CLOSE
| CLOSING
| CLOSED
| ERROR.

#[global] Instance WSMsgType_eq_dec : EqDecision WSMsgType.
Proof. solve_decision. Defined.

(** What [ws.receive()] hands back; [data] is the text of a TEXT frame. *)
Module WSMessage.
Record t := make { type : WSMsgType; data : string }.
End WSMessage.

(** [graphql_ws.server.ConnectionClosed]. *)
Inductive raised := ConnectionClosed.

(** [AiohttpConnectionContext.receive], after [await self.ws.receive()]:
    [inl] is an exception raised, [inr] the value returned. *)
Definition receive (message : WSMessage.t) : raised + option string :=
  if decide (WSMessage.type message = TEXT) then
    inr (Some (WSMessage.data message))
  else if bool_decide (WSMessage.type message ∈ [CLOSED; CLOSING; ERROR]) then
    inl ConnectionClosed
  else
    inr None.

End aiohttp.

(** ** graphql_ws.server *)

Import protocol.

(** A result sequence (the [AsyncIterator] that the engine returns) is known
    by its identity: [==] on two of them is [is]. *)
Definition handle := nat.

(** A Python dict from operation ids to result sequences, keys in the order
    of insertion, each key once. *)
Definition registry := list (option string * handle).

(** [r.get(op_id)] *)
Fixpoint registry_get (r : registry) (op_id : option string) : option handle :=
  match r with
  | [] => None
  | (k, result) :: r' =>
      if bool_decide (k = op_id) then Some result else registry_get r' op_id
  end.

(** [r[op_id] = result] *)
Fixpoint registry_set (r : registry) (op_id : option string) (result : handle)
  : registry :=
  match r with
  | [] => [(op_id, result)]
  | (k, result') :: r' =>
      if bool_decide (k = op_id) then (k, result) :: r'
      else (k, result') :: registry_set r' op_id result
  end.

(** [del r[op_id]] *)
Fixpoint registry_del (r : registry) (op_id : option string) : registry :=
  match r with
  | [] => []
  | (k, result) :: r' =>
      if bool_decide (k = op_id) then registry_del r' op_id
      else (k, result) :: registry_del r' op_id
  end.

(** What the server does to its collaborators. *)
Inductive event :=
| EvOnOpen
| EvOnConnect (payload : option OperationMessagePayload)
| EvSubscribe (payload : OperationMessagePayload)
| EvExecute (payload : OperationMessagePayload)
| EvSend (data : dict)
| EvClose (code : close_code)
| EvAclose (operation : handle)
| EvOperationComplete (op_id : option string).

(** Where a task of [on_message] is suspended.  An operation id is
    [loaded.id], a string or [None]. *)
Inductive pc :=
| Pending (message : option string)
| AwaitOnConnect
| AwaitEngine (op_id : option string)
| Iterating (op_id : option string) (result : handle)
| Done.

Record task := Task { at_pc : pc; cancelled : bool }.

(** The receive loop of [_handle]: running, left (after [on_close]), and
    after the final [task.cancel()] round. *)
Inductive phase := Open | Closing | Closed.

(** Modelled from the spec: the connection context of graphql_ws/abc.py
    (§3 and §4.2): [operations], a mapping from operation id to the running
    result sequence with get, set, delete, containment and iteration over
    keys, and [tasks], the set of dispatched tasks.  The other fields belong
    to the event loop: every task ever created, the sequences on which
    [aclose] ran, the number of sequences handed out so far, the phase of the
    receive loop and the trace. *)
Record state := State {
  operations : registry;
  tasks : list nat;
  pool : list task;
  aclosed : list handle;
  allocated : nat;
  loop : phase;
  trace : list (option nat * event)
}.

Definition emit (who : option nat) (e : event) (s : state) : state :=
  State (operations s) (tasks s) (pool s) (aclosed s) (allocated s) (loop s)
        (trace s ++ [(who, e)]).

Definition set_pc (t : nat) (c : pc) (s : state) : state :=
  State (operations s) (tasks s)
        (alter (fun tk => Task c (cancelled tk)) t (pool s))
        (aclosed s) (allocated s) (loop s) (trace s).

(** The coroutine of task [t] returns, or dies of an exception. *)
Definition finish (t : nat) (s : state) : state := set_pc t Done s.

(** [connection_context[op_id] = result] *)
Definition ctx_setitem (op_id : option string) (result : handle) (s : state)
  : state :=
  State (registry_set (operations s) op_id result) (tasks s) (pool s)
        (aclosed s)
        (allocated s) (loop s) (trace s).

(** [del connection_context[op_id]] *)
Definition ctx_delitem (op_id : option string) (s : state) : state :=
  State (registry_del (operations s) op_id) (tasks s) (pool s) (aclosed s)
        (allocated s) (loop s) (trace s).

(** The engine hands out a new sequence object. *)
Definition allocate (s : state) : state :=
  State (operations s) (tasks s) (pool s) (aclosed s) (S (allocated s))
        (loop s) (trace s).

(** [await operation.aclose()]: from now on the sequence is over for whoever
    iterates it. *)
Definition aclose (who : option nat) (operation : handle) (s : state) : state :=
  emit who (EvAclose operation)
       (State (operations s) (tasks s) (pool s) (operation :: aclosed s)
              (allocated s) (loop s) (trace s)).

(** [await connection_context.send(data)].  The text is [json.dumps(message)];
    the trace keeps the object that the text serialises. *)
Definition send (who : option nat) (data : dict) (s : state) : state :=
  emit who (EvSend data) s.

(** [await connection_context.close(code)] *)
Definition close (who : option nat) (code : close_code) (s : state) : state :=
  emit who (EvClose code) s.

(** [send_message], lines 78 to 82: the message that is serialised. *)
Definition send_message_data (op_id : option string) (type : GQLMsgType)
    (payload : pyval) : dict :=
  let message := [("type", PStr (value type))] in
  let message :=
    match op_id with
    | Some i => setitem message "id" (PStr i)
    | None => message
    end in
  let message :=
    if is_none payload then message else setitem message "payload" payload in
  message.

Definition send_message (who : option nat) (op_id : option string)
    (type : GQLMsgType) (payload : pyval) (s : state) : state :=
  send who (send_message_data op_id type payload) s.

Definition send_error (who : option nat) (op_id : option string)
    (error : Exception) (s : state) : state :=
  let error_payload := PDict [("message", PStr (str error))] in
  send_message who op_id ERROR error_payload s.

(** [unsubscribe]: the stored sequence, if any, is closed and the hook
    [on_operation_complete] runs.  The registry is left as it is. *)
Definition unsubscribe (who : option nat) (op_id : option string) (s : state)
  : state :=
  match registry_get (operations s) op_id with
  | Some operation => emit who (EvOperationComplete op_id) (aclose who operation s)
  | None => s
  end.

(** [on_close]: nothing for an empty context; else one [unsubscribe] per key
    of the registry, all awaited. *)
Definition on_close (s : state) : state :=
  match operations s with
  | [] => s
  | _ => foldl (fun s op_id => unsubscribe None op_id s) s (operations s).*1
  end.

Definition on_complete (who : option nat) (op_id : option string) (s : state)
  : state :=
  unsubscribe who op_id s.

Definition on_ping (who : option nat) (s : state) : state :=
  send_message who None PONG PNone s.

(** [on_connection_init] up to [await self.on_connect(...)]. *)
Definition on_connection_init (t : nat)
    (payload : option OperationMessagePayload) (s : state) : state :=
  set_pc t AwaitOnConnect (emit (Some t) (EvOnConnect payload) s).

(** [on_subscribe], lines 200 to 219: the duplicate check, then the call of
    the engine.  A message without payload dies on
    [payload.has_subscription_operation]. *)
Definition on_subscribe (t : nat) (op_id : option string)
    (payload : option OperationMessagePayload) (s : state) : state :=
  match registry_get (operations s) op_id with
  | Some _ => finish t (close (Some t) WS_ERROR_ID_ALREADY_EXISTS s)
  | None =>
      match payload with
      | None => finish t s
      | Some p =>
          set_pc t (AwaitEngine op_id)
            (emit (Some t)
               (if has_subscription_operation p then EvSubscribe p
                else EvExecute p) s)
      end
  end.

(** [on_subscribe], lines 230 to 235: the [finally] clause. *)
Definition on_subscribe_finally (t : nat) (op_id : option string)
    (result : handle) (s : state) : state :=
  finish t
    (if decide (registry_get (operations s) op_id = Some result) then
       send_message (Some t) op_id COMPLETE PNone (ctx_delitem op_id s)
     else s).

Section server.

Context {GraphQLError : Type}.
Context (format_error : GraphQLError -> pyval).
Context (loads : option string -> Exception + OperationMessage.t).

(** What an awaited call delivers when the event loop resumes the task.
    [SendRaises] is for the one place where an exception of
    [connection_context.send] is caught: the awaited hook returns, and the
    [send] of the envelope that follows raises. *)
Inductive outcome :=
| ReturnsNone
| ReturnsResult (execution_result : ExecutionResult.t GraphQLError)
| ReturnsIterator
| RaisesStopAsyncIteration
| Raises (exc : Exception)
| SendRaises (exc : Exception).

(** [send_execution_result], lines 103 to 110: the payload of the envelope. *)
Definition send_execution_result_payload
    (execution_result : ExecutionResult.t GraphQLError) (has_next : bool)
  : dict :=
  let result := [] in
  let result :=
    if truthy (ExecutionResult.data execution_result) then
      setitem (setitem result "data" (ExecutionResult.data execution_result))
              "hasNext" (PBool has_next)
    else result in
  let result :=
    match ExecutionResult.errors execution_result with
    | Some (error :: errors) =>
        setitem result "errors" (PList (format_error <$> error :: errors))
    | _ => result
    end in
  result.

Definition send_execution_result (who : option nat) (op_id : option string)
    (execution_result : ExecutionResult.t GraphQLError) (has_next : bool)
    (s : state) : state :=
  send_message who op_id NEXT
    (PDict (send_execution_result_payload execution_result has_next)) s.

(** [on_connection_init] after [on_connect], lines 150 to 156: the
    acknowledgement, or, for an exception caught by [except Exception], the
    close.  The [try] block covers [send_message] too: when the hook returns
    and the [send] of the acknowledgement raises, the socket is closed after
    the envelope was handed to [send]. *)
Definition on_connection_init_resumed (t : nat) (o : outcome) (s : state)
  : state :=
  match o with
  | ReturnsNone => finish t (send_message (Some t) None CONNECTION_ACK PNone s)
  | Raises exc => finish t (close (Some t) WS_INTERNAL_ERROR s)
  | SendRaises exc =>
      finish t
        (close (Some t) WS_INTERNAL_ERROR
           (send_message (Some t) None CONNECTION_ACK PNone s))
  | _ => s
  end.

(** [on_subscribe], lines 221 to 228, with the value of the engine. *)
Definition on_subscribe_resumed (t : nat) (op_id : option string)
    (o : outcome) (s : state) : state :=
  match o with
  | ReturnsResult result =>
      finish t (send_execution_result (Some t) op_id result false s)
  | ReturnsIterator =>
      let result := allocated s in
      set_pc t (Iterating op_id result) (ctx_setitem op_id result (allocate s))
  | Raises exc => finish t s
  | _ => s
  end.

(** One round of [async for val in result]. *)
Definition on_subscribe_iterate (t : nat) (op_id : option string)
    (result : handle) (o : outcome) (s : state) : state :=
  match o with
  | ReturnsResult val => send_execution_result (Some t) op_id val true s
  | RaisesStopAsyncIteration => on_subscribe_finally t op_id result s
  | Raises exc => on_subscribe_finally t op_id result s
  | _ => s
  end.

(** [on_message] up to its first suspension point. *)
Definition on_message (t : nat) (message : option string) (s : state) : state :=
  match loads message with
  | inl e => finish t (send_error (Some t) None e s)
  | inr loaded =>
      match OperationMessage.type loaded with
      | CONNECTION_INIT =>
          on_connection_init t (OperationMessage.payload loaded) s
      | SUBSCRIBE =>
          on_subscribe t (OperationMessage.id loaded)
                       (OperationMessage.payload loaded) s
      | COMPLETE =>
          finish t
            (on_complete (Some t)
               (Some (default EmptyString (OperationMessage.id loaded))) s)
      | PING => finish t (on_ping (Some t) s)
      | _ => finish t s
      end
  end.

(** The event loop runs task [t] up to its next suspension point.  A
    cancelled task gets [CancelledError] where it waits; an [async for] over
    a sequence on which [aclose] ran gets [StopAsyncIteration].  An outcome
    that does not fit what the task waits for enables nothing. *)
Definition resume (t : nat) (o : outcome) (s : state) : state :=
  match pool s !! t with
  | None => s
  | Some tk =>
      match at_pc tk with
      | Pending message =>
          if cancelled tk then finish t s else on_message t message s
      | AwaitOnConnect =>
          if cancelled tk then finish t s
          else on_connection_init_resumed t o s
      | AwaitEngine op_id =>
          if cancelled tk then finish t s
          else on_subscribe_resumed t op_id o s
      | Iterating op_id result =>
          if cancelled tk || bool_decide (result ∈ aclosed s)
          then on_subscribe_finally t op_id result s
          else on_subscribe_iterate t op_id result o s
      | Done => s
      end
  end.

Definition done (s : state) (t : nat) : bool :=
  match pool s !! t with
  | Some tk => match at_pc tk with Done => true | _ => false end
  | None => true
  end.

(** [_handle], the [finally] clause of the loop body. *)
Definition prune (s : state) : state :=
  State (operations s) (filter (fun t => done s t = false) (tasks s))
        (pool s) (aclosed s) (allocated s) (loop s) (trace s).

(** [_handle], one round of the loop with a message received. *)
Definition handle_message (message : option string) (s : state) : state :=
  let task := length (pool s) in
  prune (State (operations s) (task :: tasks s)
               (pool s ++ [Task (Pending message) false])
               (aclosed s) (allocated s) (loop s) (trace s)).

Definition set_loop (p : phase) (s : state) : state :=
  State (operations s) (tasks s) (pool s) (aclosed s) (allocated s) p
        (trace s).

(** [_handle], [ConnectionClosed] caught: the loop is left and [on_close]
    is awaited. *)
Definition handle_connection_closed (s : state) : state :=
  set_loop Closing (on_close (prune s)).

(** [_handle], lines 67 and 68. *)
Definition handle_cancel (s : state) : state :=
  set_loop Closed
    (State (operations s) (tasks s)
       (imap (fun t tk =>
                if bool_decide (t ∈ tasks s) then Task (at_pc tk) true else tk)
             (pool s))
       (aclosed s) (allocated s) (loop s) (trace s)).

(** What can happen next on a connection. *)
Inductive action :=
| Receive (message : option string)
| ConnectionClosed
| CancelTasks
| Resume (t : nat) (o : outcome).

Definition step (a : action) (s : state) : state :=
  match a with
  | Receive message =>
      match loop s with Open => handle_message message s | _ => s end
  | ConnectionClosed =>
      match loop s with Open => handle_connection_closed s | _ => s end
  | CancelTasks =>
      match loop s with Closing => handle_cancel s | _ => s end
  | Resume t o => resume t o s
  end.

Definition run (schedule : list action) (s : state) : state :=
  foldl (fun s a => step a s) s schedule.

(** Who acts in a transition: the resumed task, or the handler. *)
Definition actor (a : action) : option nat :=
  match a with Resume t _ => Some t | _ => None end.

(** The [async for] of task [t] takes a value: the task iterates, is not
    cancelled, and [aclose] did not run on its sequence. *)
Definition consumes (s : state) (t : nat) : bool :=
  match pool s !! t with
  | Some (Task (Iterating _ result) false) =>
      negb (bool_decide (result ∈ aclosed s))
  | _ => false
  end.

(** The value that transition [a] hands to the [async for] of task [t]. *)
Definition taken (t : nat) (a : action) (s : state)
  : list (ExecutionResult.t GraphQLError) :=
  match a with
  | Resume t' (ReturnsResult val) =>
      if bool_decide (t' = t) && consumes s t then [val] else []
  | _ => []
  end.

(** The values that the sequence of task [t] produces along a schedule, in
    the order of production. *)
Fixpoint produced (t : nat) (schedule : list action) (s : state)
  : list (ExecutionResult.t GraphQLError) :=
  match schedule with
  | [] => []
  | a :: schedule' => taken t a s ++ produced t schedule' (step a s)
  end.

(** [P] holds in every state along a schedule. *)
Fixpoint always (P : state -> Prop) (schedule : list action) (s : state)
  : Prop :=
  P s
  /\ match schedule with
     | [] => True
     | a :: schedule' => always P schedule' (step a s)
     end.

End server.

(** [_handle] after [await self.on_open(connection_context)]. *)
Definition init : state :=
  State [] [] [] [] 0 Open [(None, EvOnOpen)].

(** ** Reading a trace *)

Definition events_of (who : option nat) (tr : list (option nat * event))
  : list event :=
  (filter (fun x => x.1 = who) tr).*2.

(** What [who] did so far: a task, or ([None]) the handler itself. *)
Definition events_by (who : option nat) (s : state) : list event :=
  events_of who (trace s).

Definition sent (es : list event) : list dict :=
  omap (fun e => match e with EvSend data => Some data | _ => None end) es.

Definition has_type (type : GQLMsgType) (data : dict) : bool :=
  match getitem data "type" with
  | Some (PStr v) => String.eqb v (value type)
  | _ => false
  end.

Definition pc_of (s : state) (t : nat) : option pc := at_pc <$> pool s !! t.

(** The envelopes of one type among those that [who] sent so far. *)
Definition envelopes (type : GQLMsgType) (who : option nat) (s : state)
  : list dict :=
  filter (fun data => has_type type data = true) (sent (events_by who s)).

(** ** Fixtures: a decoder for a few wire texts, an error format, results *)

(** The double quote, character 34. *)
Definition quote : string := String (Ascii.ascii_of_nat 34) EmptyString.

Definition json_string (s : string) : string := quote +:+ s +:+ quote.

Definition json_field (k v : string) : string := json_string k +:+ ":" +:+ v.

(** [{"type":"connection_init"}] *)
Definition connection_init_text : string :=
  "{" +:+ json_field "type" (json_string "connection_init") +:+ "}".

(** [{"type":"subscribe","id":"1","payload":{"query":Q}}] *)
Definition subscribe_text (query : string) : string :=
  "{" +:+ json_field "type" (json_string "subscribe") +:+ ","
      +:+ json_field "id" (json_string "1") +:+ ","
      +:+ json_field "payload"
            ("{" +:+ json_field "query" (json_string query) +:+ "}")
      +:+ "}".

(** [{"type":"complete","id":"1"}] *)
Definition complete_text : string :=
  "{" +:+ json_field "type" (json_string "complete") +:+ ","
      +:+ json_field "id" (json_string "1") +:+ "}".

Definition feed_payload : OperationMessagePayload :=
  {| source := "subscription{feed}"; operation_name := None;
     variable_values := PNone; has_subscription_operation := true |}.

Definition ping_payload : OperationMessagePayload :=
  {| source := "query{ping}"; operation_name := None;
     variable_values := PNone; has_subscription_operation := false |}.

Definition fixture_loads (message : option string)
  : Exception + OperationMessage.t :=
  match message with
  | None =>
      inl (Exc "the JSON object must be str, bytes or bytearray, not NoneType")
  | Some text =>
      if String.eqb text connection_init_text then
        inr (OperationMessage.make CONNECTION_INIT None None)
      else if String.eqb text (subscribe_text "subscription{feed}") then
        inr (OperationMessage.make SUBSCRIBE (Some "1") (Some feed_payload))
      else if String.eqb text (subscribe_text "query{ping}") then
        inr (OperationMessage.make SUBSCRIBE (Some "1") (Some ping_payload))
      else if String.eqb text complete_text then
        inr (OperationMessage.make COMPLETE (Some "1") None)
      else
        inl (Exc "Expecting value: line 1 column 1 (char 0)")
  end.

(** Errors are known by their message. *)
Definition fixture_format_error (error : string) : pyval :=
  PDict [("message", PStr error)].

Definition pong : ExecutionResult.t string :=
  ExecutionResult.make (PDict [("ping", PStr "pong")]) None.

Definition feed (n : Z) : ExecutionResult.t string :=
  ExecutionResult.make (PDict [("feed", PInt n)]) None.

Definition failed : ExecutionResult.t string :=
  ExecutionResult.make PNone (Some ["boom"]).

Definition fixture_step (a : action) (s : state) : state :=
  step fixture_format_error fixture_loads a s.

Definition fixture_run (schedule : list action) (s : state) : state :=
  run fixture_format_error fixture_loads schedule s.

(** One [subscribe] message under id 1, whose task 0 waits for the engine. *)
Definition awaiting_engine : list (@action string) :=
  [Receive (Some (subscribe_text "subscription{feed}"));
   Resume 0 ReturnsNone].

(** One subscription under id 1, registered and iterating as task 0. *)
Definition one_subscription : list (@action string) :=
  [Receive (Some (subscribe_text "subscription{feed}"));
   Resume 0 ReturnsNone;
   Resume 0 ReturnsIterator].

(** Two [subscribe] messages with the same id: the second is received and
    passes the duplicate check while the first still waits for the engine.
    Then the engine answers the first. *)
Definition racing_subscriptions : list (@action string) :=
  [Receive (Some (subscribe_text "subscription{feed}"));
   Resume 0 ReturnsNone;
   Receive (Some (subscribe_text "subscription{feed}"));
   Resume 1 ReturnsNone;
   Resume 0 ReturnsIterator].

(** The life of one task: where a resumption takes it and what it does on
    the way. *)
Inductive task_moves : pc -> list event -> pc -> Prop :=
| moves_nowhere c :
    task_moves c [] c
| moves_done c es :
    task_moves c es Done
| moves_on_connect message payload :
    task_moves (Pending message) [EvOnConnect payload] AwaitOnConnect
| moves_subscribe message op_id payload :
    task_moves (Pending message) [EvSubscribe payload] (AwaitEngine op_id)
| moves_execute message op_id payload :
    task_moves (Pending message) [EvExecute payload] (AwaitEngine op_id)
| moves_register op_id result :
    task_moves (AwaitEngine op_id) [] (Iterating op_id result)
| moves_next op_id result payload :
    task_moves (Iterating op_id result)
               [EvSend (send_message_data op_id NEXT payload)]
               (Iterating op_id result).

(** Every envelope a task sent so far, by where the task is: nothing before
    its operation is registered, only [next] envelopes while it iterates. *)
Definition well_logged (s : state) : Prop :=
  forall t,
    match pc_of s t with
    | Some Done => True
    | Some (Iterating _ _) =>
        Forall (fun data => has_type NEXT data = true)
               (sent (events_by (Some t) s))
    | _ => sent (events_by (Some t) s) = []
    end.

(** A transition only appends to the trace, under the name of its actor. *)
Definition appends (who : option nat) (s s' : state) : Prop :=
  exists new, trace s' = trace s ++ new /\ Forall (fun x => x.1 = who) new.

(** ** The receive loop over the frames of the socket *)

(** [_handle], lines 51 to 66, with [receive] of the aiohttp binding, fed
    with the frames that [ws.receive()] delivers one after the other: a task
    is created for what [receive] returns, and the loop is left for
    [on_close] when it raises.  No task is run here; the event loop does
    that in between. *)
Fixpoint handle_frames (frames : list aiohttp.WSMessage.t) (s : state) : state :=
  match frames with
  | [] => s
  | frame :: frames' =>
      match aiohttp.receive frame with
      | inl aiohttp.ConnectionClosed => handle_connection_closed s
      | inr message => handle_frames frames' (handle_message message s)
      end
  end.

(** The frame types on which [receive] raises. *)
Definition closing (frame : aiohttp.WSMessage.t) : bool :=
  bool_decide (aiohttp.WSMessage.type frame
               ∈ [aiohttp.CLOSED; aiohttp.CLOSING; aiohttp.ERROR]).

(** What [receive] returns for a frame on which it does not raise. *)
Definition received (frame : aiohttp.WSMessage.t) : option string :=
  if decide (aiohttp.WSMessage.type frame = aiohttp.TEXT)
  then Some (aiohttp.WSMessage.data frame) else None.

(** The frames before the first one on which [receive] raises. *)
Fixpoint before_close (frames : list aiohttp.WSMessage.t)
  : list aiohttp.WSMessage.t :=
  match frames with
  | [] => []
  | frame :: frames' =>
      if closing frame then [] else frame :: before_close frames'
  end.

(** ** What one task does in its life *)

(** The call of the engine that [on_subscribe] makes for a payload. *)
Definition engine_call (payload : OperationMessagePayload) : event :=
  if has_subscription_operation payload then EvSubscribe payload
  else EvExecute payload.

(** The [next] envelopes of an operation, one for each payload. *)
Definition next_events (op_id : option string) (payloads : list pyval)
  : list event :=
  (fun payload => EvSend (send_message_data op_id NEXT payload)) <$> payloads.

(** What a task does in the resumption in which it ends, by where it was. *)
Inductive task_ends : pc -> list event -> Prop :=
| ends_silently c :
    task_ends c []
| ends_error message e :
    task_ends (Pending message)
      [EvSend (send_message_data None ERROR
                 (PDict [("message", PStr (str e))]))]
| ends_pong message :
    task_ends (Pending message) [EvSend (send_message_data None PONG PNone)]
| ends_unsubscribe message op_id operation :
    task_ends (Pending message)
      [EvAclose operation; EvOperationComplete op_id]
| ends_duplicate message :
    task_ends (Pending message) [EvClose WS_ERROR_ID_ALREADY_EXISTS]
| ends_ack :
    task_ends AwaitOnConnect
      [EvSend (send_message_data None CONNECTION_ACK PNone)]
| ends_internal_error :
    task_ends AwaitOnConnect [EvClose WS_INTERNAL_ERROR]
| ends_ack_not_sent :
    task_ends AwaitOnConnect
      [EvSend (send_message_data None CONNECTION_ACK PNone);
       EvClose WS_INTERNAL_ERROR]
| ends_single op_id payload :
    task_ends (AwaitEngine op_id)
      [EvSend (send_message_data op_id NEXT payload)]
| ends_complete op_id result :
    task_ends (Iterating op_id result)
      [EvSend (send_message_data op_id COMPLETE PNone)].

(** One resumption of a task, exactly: where it was, what it does, where it
    is afterwards. *)
Inductive task_step : pc -> list event -> pc -> Prop :=
| step_nowhere c :
    task_step c [] c
| step_on_connect message payload :
    task_step (Pending message) [EvOnConnect payload] AwaitOnConnect
| step_engine message op_id payload :
    task_step (Pending message) [engine_call payload] (AwaitEngine op_id)
| step_register op_id result :
    task_step (AwaitEngine op_id) [] (Iterating op_id result)
| step_next op_id result payload :
    task_step (Iterating op_id result)
              [EvSend (send_message_data op_id NEXT payload)]
              (Iterating op_id result)
| step_ends c es :
    task_ends c es -> task_step c es Done.

(** Everything a task did so far, while it is not over. *)
Inductive running : pc -> list event -> Prop :=
| running_pending message :
    running (Pending message) []
| running_on_connect payload :
    running AwaitOnConnect [EvOnConnect payload]
| running_engine op_id payload :
    running (AwaitEngine op_id) [engine_call payload]
| running_iterating op_id result payload payloads :
    running (Iterating op_id result)
            (engine_call payload :: next_events op_id payloads).

(** Everything a task did, once it is over. *)
Definition ended (es : list event) : Prop :=
  exists c es0 es1, running c es0 /\ task_ends c es1 /\ es = es0 ++ es1.

(** Every task of a state has one of these lives behind it. *)
Definition log_shape (s : state) : Prop :=
  forall t,
    match pc_of s t with
    | None => events_by (Some t) s = []
    | Some Done => ended (events_by (Some t) s)
    | Some c => running c (events_by (Some t) s)
    end.

(** ** Invariants of the registry and of the task set *)

(** Every entry of the registry is the sequence of an operation that
    iterates it under that id. *)
Definition owned (s : state) : Prop :=
  forall op_id result,
    registry_get (operations s) op_id = Some result ->
    exists t cancelled,
      pool s !! t = Some (Task (Iterating op_id result) cancelled).

(** Every task that is not over is in [connection_context.tasks]. *)
Definition tracked (s : state) : Prop :=
  forall t tk,
    pool s !! t = Some tk -> at_pc tk <> Done -> t ∈ tasks s.

(** Every task that is not over is cancelled. *)
Definition all_cancelled (s : state) : Prop :=
  forall t tk,
    pool s !! t = Some tk -> at_pc tk <> Done -> cancelled tk = true.

(** ** The [complete] envelopes of an id *)

(** The envelope is addressed to [op_id]: its [id] field is the id; for the
    id [None], it has no [id] field. *)
Definition has_id (op_id : option string) (data : dict) : bool :=
  match op_id, getitem data "id" with
  | Some i, Some (PStr j) => String.eqb i j
  | None, None => true
  | _, _ => false
  end.

(** The [complete] envelope for [op_id] in an event, with its sender. *)
Definition complete_for (op_id : option string) (x : option nat * event)
  : option (option nat * dict) :=
  match x.2 with
  | EvSend data =>
      if has_type COMPLETE data && has_id op_id data then Some (x.1, data)
      else None
  | _ => None
  end.

(** The [complete] envelopes for [op_id] that anyone on the connection, a
    task or the handler, handed to [send] so far, each with its sender. *)
Definition completes (op_id : option string) (s : state)
  : list (option nat * dict) :=
  omap (complete_for op_id) (trace s).

(** Every sequence comes from the engine once: the sequence of an iterating
    task was handed out before, and to this task only. *)
Definition fresh (s : state) : Prop :=
  forall t op_id result flag,
    pool s !! t = Some (Task (Iterating op_id result) flag) ->
    result < allocated s
    /\ forall t' op_id' flag',
         pool s !! t' = Some (Task (Iterating op_id' result) flag') -> t' = t.

(** ** More fixtures *)

(** [{"type":"ping","id":"7"}] *)
Definition ping_text : string :=
  "{" +:+ json_field "type" (json_string "ping") +:+ ","
      +:+ json_field "id" (json_string "7") +:+ "}".

(** [{"type":"complete"}] *)
Definition complete_without_id_text : string :=
  "{" +:+ json_field "type" (json_string "complete") +:+ "}".

(** [{"type":"pong"}] *)
Definition pong_text : string :=
  "{" +:+ json_field "type" (json_string "pong") +:+ "}".

(** The decoder of the fixtures, with three more texts. *)
Definition fixture_loads_control (message : option string)
  : Exception + OperationMessage.t :=
  match message with
  | Some text =>
      if String.eqb text ping_text then
        inr (OperationMessage.make PING (Some "7") None)
      else if String.eqb text complete_without_id_text then
        inr (OperationMessage.make COMPLETE None None)
      else if String.eqb text pong_text then
        inr (OperationMessage.make PONG None None)
      else fixture_loads message
  | None => fixture_loads message
  end.

Definition text_frame (data : string) : aiohttp.WSMessage.t :=
  aiohttp.WSMessage.make aiohttp.TEXT data.

Definition control_frame (type : aiohttp.WSMsgType) : aiohttp.WSMessage.t :=
  aiohttp.WSMessage.make type EmptyString.

(** * Properties *)

(** ** Dictionaries *)

Lemma getitem_setitem (d : dict) (k k' : string) (v : pyval) :
  getitem (setitem d k v) k' =
  if String.eqb k k' then Some v else getitem d k'.
Proof.
  induction d as [|[k0 v0] d IH]; simpl.
  - reflexivity.
  - destruct (String.eqb_spec k0 k) as [->|Hk0]; simpl.
    + destruct (String.eqb k k'); reflexivity.
    + destruct (String.eqb_spec k0 k') as [->|Hk0'].
      * destruct (String.eqb_spec k k'); congruence.
      * apply IH.
Qed.

Lemma send_message_data_type (op_id : option string) (type : GQLMsgType)
    (payload : pyval) :
  getitem (send_message_data op_id type payload) "type"
  = Some (PStr (value type)).
Proof. destruct op_id, payload; reflexivity. Qed.

Lemma has_type_send_message_data (op_id : option string)
    (type type' : GQLMsgType) (payload : pyval) :
  has_type type' (send_message_data op_id type payload)
  = bool_decide (value type = value type').
Proof.
  unfold has_type. rewrite send_message_data_type.
  destruct (String.eqb_spec (value type) (value type')) as [E|E].
  - by rewrite bool_decide_eq_true_2.
  - by rewrite bool_decide_eq_false_2.
Qed.

Lemma registry_get_del (r : registry) (op_id : option string) :
  registry_get (registry_del r op_id) op_id = None.
Proof.
  induction r as [|[k result] r IH]; simpl; [done|].
  case_bool_decide as Hk; simpl; [done|].
  by rewrite bool_decide_eq_false_2.
Qed.

(** ** Traces *)

Lemma events_of_app who tr1 tr2 :
  events_of who (tr1 ++ tr2) = events_of who tr1 ++ events_of who tr2.
Proof. unfold events_of. by rewrite filter_app, fmap_app. Qed.

Lemma events_of_own who tr :
  Forall (fun x => x.1 = who) tr -> events_of who tr = tr.*2.
Proof.
  unfold events_of. induction 1 as [|x tr Hx _ IH]; [done|].
  rewrite filter_cons, decide_True by done. simpl. f_equal. apply IH.
Qed.

Lemma events_of_other who who' tr :
  who' <> who -> Forall (fun x => x.1 = who') tr -> events_of who tr = [].
Proof.
  unfold events_of. intros Hne. induction 1 as [|x tr Hx _ IH]; [done|].
  rewrite filter_cons, decide_False by congruence. done.
Qed.

(** ** The transitions, one by one *)

Section transitions.

Context {GraphQLError : Type}.
Context (format_error : GraphQLError -> pyval).
Context (loads : option string -> Exception + OperationMessage.t).

Abbreviation resumed := (resume format_error loads).
Abbreviation step := (step format_error loads).
Abbreviation run := (run format_error loads).

Lemma appends_refl who s : appends who s s.
Proof. exists []. by rewrite app_nil_r. Qed.

Lemma appends_trans who s1 s2 s3 :
  appends who s1 s2 -> appends who s2 s3 -> appends who s1 s3.
Proof.
  intros (n1 & E1 & F1) (n2 & E2 & F2). exists (n1 ++ n2). split.
  - by rewrite E2, E1, app_assoc.
  - by apply Forall_app.
Qed.

Ltac solve_appends :=
  unfold appends; simpl;
  first
    [ by (exists []; rewrite app_nil_r)
    | rewrite <- ?app_assoc; eexists; split;
      [reflexivity | by repeat constructor] ].

Lemma unsubscribe_appends who op_id s : appends who s (unsubscribe who op_id s).
Proof. unfold unsubscribe, aclose. case_match; solve_appends. Qed.

Lemma resume_appends t o s : appends (Some t) s (resumed t o s).
Proof.
  unfold resume, on_message, on_connection_init_resumed, on_subscribe_resumed,
    on_subscribe_iterate, on_subscribe_finally, on_subscribe,
    on_connection_init, on_complete, on_ping, send_execution_result,
    send_error, send_message, send, close, finish, unsubscribe, aclose.
  repeat case_match; solve_appends.
Qed.

Lemma unsubscribe_frame who op_id s :
  pool (unsubscribe who op_id s) = pool s
  /\ operations (unsubscribe who op_id s) = operations s.
Proof. unfold unsubscribe, aclose. by case_match. Qed.

Lemma unsubscribe_all_frame op_ids s :
  let s' := foldl (fun s op_id => unsubscribe None op_id s) s op_ids in
  pool s' = pool s /\ operations s' = operations s /\ appends None s s'.
Proof.
  revert s. induction op_ids as [|op_id op_ids IH]; intros s; simpl.
  - split_and!; [done..|apply appends_refl].
  - destruct (IH (unsubscribe None op_id s)) as (Hp & Ho & Ha).
    destruct (unsubscribe_frame None op_id s) as [Hp' Ho'].
    split_and!; [congruence..|].
    eapply appends_trans; [apply unsubscribe_appends|done].
Qed.

Lemma on_close_frame s :
  pool (on_close s) = pool s /\ operations (on_close s) = operations s
  /\ appends None s (on_close s).
Proof.
  unfold on_close. destruct (operations s) as [|entry r] eqn:E.
  - split_and!; [done..|apply appends_refl].
  - rewrite <- E. apply unsubscribe_all_frame.
Qed.

Lemma step_appends a s : appends (actor a) s (step a s).
Proof.
  destruct a as [message| | |t o]; simpl.
  - destruct (loop s); solve_appends.
  - destruct (loop s); try solve_appends.
    unfold handle_connection_closed.
    destruct (on_close_frame (prune s)) as (_ & _ & new & E & F).
    exists new. by split.
  - destruct (loop s); solve_appends.
  - apply resume_appends.
Qed.

Lemma events_by_step_other a s t :
  actor a <> Some t -> events_by (Some t) (step a s) = events_by (Some t) s.
Proof.
  intros Hne. destruct (step_appends a s) as (new & E & F).
  unfold events_by. rewrite E, events_of_app.
  rewrite (events_of_other _ (actor a) new) by done. by rewrite app_nil_r.
Qed.

Lemma resume_pool t o s :
  pool (resumed t o s) = pool s
  \/ exists c, pool (resumed t o s)
               = alter (fun tk => Task c (cancelled tk)) t (pool s).
Proof.
  unfold resume, on_message, on_connection_init_resumed, on_subscribe_resumed,
    on_subscribe_iterate, on_subscribe_finally, on_subscribe,
    on_connection_init, on_complete, on_ping, send_execution_result,
    send_error, send_message, send, close, finish, unsubscribe, aclose.
  repeat case_match; simpl; eauto.
Qed.

Lemma resume_done t o s : pc_of s t = Some Done -> resumed t o s = s.
Proof.
  unfold pc_of, resume. destruct (pool s !! t) as [tk|]; [|done].
  simpl. intros [= ->]. done.
Qed.

Lemma pc_of_step_other a s t :
  actor a <> Some t -> is_Some (pool s !! t) ->
  pc_of (step a s) t = pc_of s t.
Proof.
  intros Hne [tk Htk]. unfold pc_of. destruct a as [message| | |t' o]; simpl.
  - destruct (loop s); [|done..]. simpl. by rewrite (lookup_app_l_Some _ _ _ tk), Htk.
  - destruct (loop s); [|done..]. unfold handle_connection_closed. simpl.
    by destruct (on_close_frame (prune s)) as (-> & _).
  - destruct (loop s); [done| |done]. simpl.
    rewrite list_lookup_imap, Htk. simpl. by case_bool_decide.
  - assert (t' <> t) by (intros ->; by apply Hne).
    destruct (resume_pool t' o s) as [->|[c ->]]; [done|].
    by rewrite list_lookup_alter_ne.
Qed.

Lemma pc_of_step_new a s t :
  actor a <> Some t -> pool s !! t = None ->
  pc_of (step a s) t = None
  \/ exists message, pc_of (step a s) t = Some (Pending message).
Proof.
  intros Hne Htk. unfold pc_of. destruct a as [message| | |t' o]; simpl.
  - destruct (loop s); [|left; by rewrite Htk..]. simpl.
    apply lookup_ge_None in Htk.
    destruct (decide (t = length (pool s))) as [->|Hlen].
    + right. exists message. by rewrite list_lookup_middle.
    + left. rewrite lookup_ge_None_2; [done|]. rewrite length_app. simpl. lia.
  - left. destruct (loop s); [|by rewrite Htk..].
    unfold handle_connection_closed. simpl.
    destruct (on_close_frame (prune s)) as (-> & _). simpl. by rewrite Htk.
  - left. destruct (loop s); [by rewrite Htk| |by rewrite Htk]. simpl.
    by rewrite list_lookup_imap, Htk.
  - left. destruct (resume_pool t' o s) as [->|[c ->]]; [by rewrite Htk|].
    destruct (decide (t' = t)) as [->|Hne']; [by destruct Hne|].
    by rewrite list_lookup_alter_ne, Htk.
Qed.

Lemma pc_of_step_done a s t :
  pc_of s t = Some Done -> pc_of (step a s) t = Some Done.
Proof.
  intros Hd. destruct (decide (actor a = Some t)) as [E|Hne].
  - destruct a; try discriminate. simpl in E. injection E as ->. simpl.
    by rewrite resume_done.
  - rewrite pc_of_step_other; [done..|].
    unfold pc_of in Hd. by destruct (pool s !! t).
Qed.

Lemma events_by_step_done a s t :
  pc_of s t = Some Done ->
  events_by (Some t) (step a s) = events_by (Some t) s.
Proof.
  intros Hd. destruct (decide (actor a = Some t)) as [E|Hne].
  - destruct a; try discriminate. simpl in E. injection E as ->. simpl.
    by rewrite resume_done.
  - by apply events_by_step_other.
Qed.

(** A finished task stays finished and silent. *)
Lemma run_done schedule s t :
  pc_of s t = Some Done ->
  pc_of (run schedule s) t = Some Done
  /\ events_by (Some t) (run schedule s) = events_by (Some t) s.
Proof.
  revert s. induction schedule as [|a schedule IH]; intros s Hd; [done|].
  simpl. destruct (IH (step a s)) as [Hpc Hev].
  - by apply pc_of_step_done.
  - split; [done|]. rewrite Hev. by apply events_by_step_done.
Qed.

Lemma events_of_snoc who tr e :
  events_of who (tr ++ [(who, e)]) = events_of who tr ++ [e].
Proof. rewrite events_of_app. f_equal. by apply events_of_own; constructor. Qed.

Lemma pc_of_set_pc t c s :
  is_Some (pool s !! t) -> pc_of (set_pc t c s) t = Some c.
Proof.
  intros [tk Htk]. unfold pc_of, set_pc. simpl.
  by rewrite list_lookup_alter_eq, Htk.
Qed.

Ltac unfold_resume :=
  unfold on_message, on_connection_init_resumed, on_subscribe_resumed,
    on_subscribe_iterate, on_subscribe_finally, on_subscribe,
    on_connection_init, on_complete, on_ping, send_execution_result,
    send_error, send_message, send, close, finish, unsubscribe, aclose.

Lemma resume_task t o s tk :
  pool s !! t = Some tk ->
  exists c es,
    pc_of (resumed t o s) t = Some c
    /\ events_by (Some t) (resumed t o s) = events_by (Some t) s ++ es
    /\ task_moves (at_pc tk) es c.
Proof.
  intros Htk. unfold resume. rewrite Htk.
  assert (pc_of s t = Some (at_pc tk)) as Hpc by (unfold pc_of; by rewrite Htk).
  destruct (at_pc tk) eqn:Hat; unfold_resume; repeat case_match.
  all: eexists _, _; split_and!;
    [ first [ exact Hpc
            | unfold pc_of; simpl; rewrite list_lookup_alter_eq, Htk;
              reflexivity ]
    | unfold events_by; simpl; rewrite ?events_of_snoc, <- ?app_assoc;
      first [ reflexivity | symmetry; apply app_nil_r ]
    | try rewrite Hat; by econstructor ].
Qed.

Lemma well_logged_step a s : well_logged s -> well_logged (step a s).
Proof.
  intros Hs t. specialize (Hs t).
  destruct (decide (actor a = Some t)) as [E|Hne].
  - destruct a as [| | |t' o]; try discriminate. simpl in E. injection E as ->.
    simpl. destruct (pool s !! t) as [tk|] eqn:Htk.
    + destruct (resume_task t o s tk Htk) as (c & es & -> & -> & Hm).
      unfold pc_of in Hs. rewrite Htk in Hs. simpl in Hs.
      destruct (at_pc tk); inversion Hm; subst; rewrite ?app_nil_r;
        try done; unfold sent in *; rewrite ?omap_app; simpl;
        try (rewrite Hs; simpl); try done.
      apply Forall_app. split; [done|]. constructor; [|done].
      by rewrite has_type_send_message_data.
    + unfold resume. by rewrite Htk.
  - rewrite events_by_step_other by done.
    destruct (pool s !! t) as [tk|] eqn:Htk.
    + rewrite pc_of_step_other by eauto. done.
    + unfold pc_of in Hs. rewrite Htk in Hs. simpl in Hs.
      by destruct (pc_of_step_new a s t Hne Htk) as [->|[message ->]].
Qed.

Lemma well_logged_run schedule s :
  well_logged s -> well_logged (run schedule s).
Proof.
  revert s. induction schedule as [|a schedule IH]; intros s Hs; [done|].
  simpl. by apply IH, well_logged_step.
Qed.

Lemma well_logged_init : well_logged init.
Proof. intros t. reflexivity. Qed.

End transitions.

(** ** The envelope that [send_message] writes *)

(** C8. Whatever the type, the id and the payload, [send_message] hands one
    message to the connection; it always has the field [type], it has the
    field [id] exactly when the id is not [None] (then the id is its value),
    and the field [payload] exactly when the payload is not [None]. *)
Theorem send_message_fields (who : option nat) (op_id : option string)
    (type : GQLMsgType) (payload : pyval) (s : state) :
  trace (send_message who op_id type payload s)
  = trace s ++ [(who, EvSend (send_message_data op_id type payload))]
  /\ getitem (send_message_data op_id type payload) "type"
     = Some (PStr (value type))
  /\ getitem (send_message_data op_id type payload) "id" = PStr <$> op_id
  /\ (is_Some (getitem (send_message_data op_id type payload) "id")
      <-> op_id <> None)
  /\ getitem (send_message_data op_id type payload) "payload"
     = (if is_none payload then None else Some payload)
  /\ (is_Some (getitem (send_message_data op_id type payload) "payload")
      <-> payload <> PNone).
Proof.
  split; [reflexivity|]. split; [apply send_message_data_type|].
  destruct op_id as [i|], payload; simpl;
    (split; [reflexivity|]); (split; [|split; [reflexivity|]]);
    split; intros H; try done; try (by destruct H as [? [=]]).
Qed.

(** ** The aiohttp binding *)

(** C10. [receive] returns the text of a TEXT frame, raises
    [ConnectionClosed] exactly for the frame types CLOSED, CLOSING and ERROR,
    and returns [None] for every other frame type. *)
Theorem receive_by_frame_type (message : aiohttp.WSMessage.t) :
  aiohttp.receive message
  = match aiohttp.WSMessage.type message with
    | aiohttp.TEXT => inr (Some (aiohttp.WSMessage.data message))
    | aiohttp.CLOSED | aiohttp.CLOSING | aiohttp.ERROR =>
        inl aiohttp.ConnectionClosed
    | _ => inr None
    end
  /\ (aiohttp.receive message = inl aiohttp.ConnectionClosed
      <-> aiohttp.WSMessage.type message
          ∈ [aiohttp.CLOSED; aiohttp.CLOSING; aiohttp.ERROR]).
Proof.
  destruct message as [type data]. unfold aiohttp.receive. simpl.
  destruct type; simpl; (split; [reflexivity|]);
    split; intros H; try done; try (by repeat constructor);
    by repeat (apply elem_of_cons in H as [H|H]; [done|]);
       apply elem_of_nil in H.
Qed.

(** ** Messages, one at a time *)

Section dispatch.

Context {GraphQLError : Type}.
Context (format_error : GraphQLError -> pyval).
Context (loads : option string -> Exception + OperationMessage.t).

Abbreviation resumed := (resume format_error loads).
Abbreviation step := (step format_error loads).
Abbreviation run := (run format_error loads).

(** C4. A received message that fails to decode is answered with one [error]
    envelope without id whose payload carries the text of the failure; the
    task of the message is over, nothing is closed, the registry and the
    receive loop are as before, and the task never does anything more. *)
Theorem on_message_decode_failure (s : state) (t : nat)
    (message : option string) (e : Exception) (o : outcome)
    (schedule : list action) :
  pool s !! t = Some (Task (Pending message) false) ->
  loads message = inl e ->
  trace (step (Resume t o) s)
  = trace s ++ [(Some t, EvSend [("type", PStr "error");
                                 ("payload", PDict [("message", PStr (str e))])])]
  /\ getitem [("type", PStr "error");
              ("payload", PDict [("message", PStr (str e))])] "id" = None
  /\ pc_of (step (Resume t o) s) t = Some Done
  /\ operations (step (Resume t o) s) = operations s
  /\ loop (step (Resume t o) s) = loop s
  /\ events_by (Some t) (run schedule (step (Resume t o) s))
     = events_by (Some t) (step (Resume t o) s).
Proof.
  intros Htk He.
  assert (pc_of (step (Resume t o) s) t = Some Done) as Hd.
  { simpl. unfold resume. rewrite Htk. simpl.
    unfold on_message. rewrite He. apply pc_of_set_pc. simpl. eauto. }
  split_and!; try done.
  - simpl. unfold resume. rewrite Htk. simpl.
    unfold on_message. by rewrite He.
  - simpl. unfold resume. rewrite Htk. simpl.
    unfold on_message. by rewrite He.
  - simpl. unfold resume. rewrite Htk. simpl.
    unfold on_message. by rewrite He.
  - by apply run_done.
Qed.

(** C3. On a [connection_init] message the server calls [on_connect] with the
    payload of the message and waits for it.  If the hook raises, the
    connection is closed with the internal-error code and nothing is sent;
    if it returns, one [connection_ack] envelope without id and without
    payload is sent. *)
Theorem on_connection_init_handshake (s : state) (t : nat)
    (message : option string) (op_id : option string)
    (payload : option OperationMessagePayload) (o : outcome) (exc : Exception) :
  pool s !! t = Some (Task (Pending message) false) ->
  loads message = inr (OperationMessage.make CONNECTION_INIT op_id payload) ->
  trace (step (Resume t o) s) = trace s ++ [(Some t, EvOnConnect payload)]
  /\ pc_of (step (Resume t o) s) t = Some AwaitOnConnect
  /\ trace (step (Resume t (Raises exc)) (step (Resume t o) s))
     = trace (step (Resume t o) s) ++ [(Some t, EvClose WS_INTERNAL_ERROR)]
  /\ pc_of (step (Resume t (Raises exc)) (step (Resume t o) s)) t = Some Done
  /\ trace (step (Resume t ReturnsNone) (step (Resume t o) s))
     = trace (step (Resume t o) s)
       ++ [(Some t, EvSend [("type", PStr "connection_ack")])]
  /\ pc_of (step (Resume t ReturnsNone) (step (Resume t o) s)) t = Some Done.
Proof.
  intros Htk He.
  assert (step (Resume t o) s
          = set_pc t AwaitOnConnect (emit (Some t) (EvOnConnect payload) s)) as E.
  { simpl. unfold resume. rewrite Htk. simpl.
    unfold on_message. by rewrite He. }
  rewrite E.
  assert (pool (set_pc t AwaitOnConnect (emit (Some t) (EvOnConnect payload) s))
          !! t = Some (Task AwaitOnConnect false)) as Htk'.
  { simpl. by rewrite list_lookup_alter_eq, Htk. }
  split_and!.
  - done.
  - unfold pc_of. by rewrite Htk'.
  - simpl. unfold resume. rewrite Htk'. done.
  - simpl. unfold resume. rewrite Htk'. simpl.
    apply pc_of_set_pc. simpl. rewrite list_lookup_alter_eq, Htk. eauto.
  - simpl. unfold resume. rewrite Htk'. done.
  - simpl. unfold resume. rewrite Htk'. simpl.
    apply pc_of_set_pc. simpl. rewrite list_lookup_alter_eq, Htk. eauto.
Qed.

End dispatch.

(** ** Operations *)

Section operations.

Context {GraphQLError : Type}.
Context (format_error : GraphQLError -> pyval).
Context (loads : option string -> Exception + OperationMessage.t).

Abbreviation resumed := (resume format_error loads).
Abbreviation step := (step format_error loads).
Abbreviation run := (run format_error loads).
Abbreviation payload_of := (send_execution_result_payload format_error).

Lemma has_next_field (execution_result : ExecutionResult.t GraphQLError)
    (has_next : bool) :
  getitem (payload_of execution_result has_next) "hasNext"
  = if truthy (ExecutionResult.data execution_result)
    then Some (PBool has_next) else None.
Proof.
  unfold send_execution_result_payload.
  destruct (truthy (ExecutionResult.data execution_result));
    destruct (ExecutionResult.errors execution_result) as [[|error errors]|];
    reflexivity.
Qed.

(** C2, as amended. A [subscribe] whose id is in the registry when its
    handler makes the duplicate check closes the connection with the
    duplicate-id code, which is not the internal-error code; it calls no
    engine, hands out no sequence, leaves the registry as it is, and its task
    is over for good. *)
Theorem on_subscribe_duplicate_id (s : state) (t : nat)
    (message : option string) (op_id : option string)
    (payload : option OperationMessagePayload) (o : outcome)
    (schedule : list action) :
  pool s !! t = Some (Task (Pending message) false) ->
  loads message = inr (OperationMessage.make SUBSCRIBE op_id payload) ->
  is_Some (registry_get (operations s) op_id) ->
  trace (step (Resume t o) s)
  = trace s ++ [(Some t, EvClose WS_ERROR_ID_ALREADY_EXISTS)]
  /\ WS_ERROR_ID_ALREADY_EXISTS <> WS_INTERNAL_ERROR
  /\ operations (step (Resume t o) s) = operations s
  /\ allocated (step (Resume t o) s) = allocated s
  /\ pc_of (step (Resume t o) s) t = Some Done
  /\ events_by (Some t) (run schedule (step (Resume t o) s))
     = events_by (Some t) s ++ [EvClose WS_ERROR_ID_ALREADY_EXISTS].
Proof.
  intros Htk He [stored Hstored].
  assert (step (Resume t o) s
          = finish t (close (Some t) WS_ERROR_ID_ALREADY_EXISTS s)) as E.
  { simpl. unfold resume. rewrite Htk. simpl.
    unfold on_message. rewrite He. simpl. unfold on_subscribe.
    by rewrite Hstored. }
  rewrite E.
  assert (pc_of (finish t (close (Some t) WS_ERROR_ID_ALREADY_EXISTS s)) t
          = Some Done) as Hd.
  { apply pc_of_set_pc. simpl. eauto. }
  split_and!; try done.
  destruct (run_done format_error loads schedule _ t Hd) as [_ ->].
  unfold events_by. simpl. apply events_of_snoc.
Qed.

(** C5, as amended. When the engine returns a single result, the task sends
    one [next] envelope for the id and nothing else, ever: no [complete].
    The payload of the envelope has [hasNext] false when the result has
    data, and no field [hasNext] when it has none.  The registry is not
    touched. *)
Theorem on_subscribe_single_result (schedule0 : list action) (t : nat)
    (op_id : option string) (result : ExecutionResult.t GraphQLError)
    (schedule : list action) :
  pool (run schedule0 init) !! t = Some (Task (AwaitEngine op_id) false) ->
  sent (events_by (Some t)
          (run schedule
             (step (Resume t (ReturnsResult result)) (run schedule0 init))))
  = [send_message_data op_id NEXT
       (PDict (payload_of result false))]
  /\ getitem (payload_of result false) "hasNext"
     = (if truthy (ExecutionResult.data result)
        then Some (PBool false) else None)
  /\ operations (step (Resume t (ReturnsResult result)) (run schedule0 init))
     = operations (run schedule0 init)
  /\ pc_of (run schedule
              (step (Resume t (ReturnsResult result)) (run schedule0 init))) t
     = Some Done.
Proof.
  intros Htk. set (s := run schedule0 init) in *.
  assert (step (Resume t (ReturnsResult result)) s
          = finish t (send_execution_result format_error (Some t) op_id
                        result false s)) as E.
  { simpl. unfold resume. by rewrite Htk. }
  rewrite E.
  assert (pc_of (finish t (send_execution_result format_error (Some t) op_id
                             result false s)) t = Some Done) as Hd.
  { apply pc_of_set_pc. simpl. eauto. }
  destruct (run_done format_error loads schedule _ t Hd) as [-> ->].
  split_and!; try done; [|apply has_next_field].
  pose proof (well_logged_run format_error loads schedule0 init
                well_logged_init t) as Hlog.
  fold s in Hlog. unfold pc_of in Hlog. rewrite Htk in Hlog. simpl in Hlog.
  unfold events_by. simpl. rewrite events_of_snoc.
  unfold sent. rewrite omap_app. unfold sent, events_by in Hlog.
  by rewrite Hlog.
Qed.

(** C6, as amended. Natural exhaustion runs the [finally] clause of
    [on_subscribe]: the task is over, and if the registry stores the
    exhausted sequence under the id, the entry is removed and one [complete]
    envelope is sent, else nothing is removed and nothing is sent.
    [unsubscribe] closes the stored sequence and calls
    [on_operation_complete] once, leaves the registry alone, and does
    nothing for an absent id; the operation that it closed then ends through
    the same [finally] clause, whatever its sequence delivers. *)
Theorem on_subscribe_finally_guard (s : state) (t : nat)
    (op_id : option string) (result : handle) (who : option nat)
    (o : outcome) :
  pool s !! t = Some (Task (Iterating op_id result) false) ->
  step (Resume t RaisesStopAsyncIteration) s
  = on_subscribe_finally t op_id result s
  /\ pc_of (on_subscribe_finally t op_id result s) t = Some Done
  /\ (if decide (registry_get (operations s) op_id = Some result) then
        operations (on_subscribe_finally t op_id result s)
        = registry_del (operations s) op_id
        /\ trace (on_subscribe_finally t op_id result s)
           = trace s
             ++ [(Some t, EvSend (send_message_data op_id COMPLETE PNone))]
      else
        operations (on_subscribe_finally t op_id result s) = operations s
        /\ trace (on_subscribe_finally t op_id result s) = trace s)
  /\ operations (unsubscribe who op_id s) = operations s
  /\ match registry_get (operations s) op_id with
     | Some operation =>
         trace (unsubscribe who op_id s)
         = trace s ++ [(who, EvAclose operation);
                       (who, EvOperationComplete op_id)]
         /\ aclosed (unsubscribe who op_id s) = operation :: aclosed s
     | None => unsubscribe who op_id s = s
     end
  /\ (registry_get (operations s) op_id = Some result ->
      step (Resume t o) (unsubscribe who op_id s)
      = on_subscribe_finally t op_id result (unsubscribe who op_id s)).
Proof.
  intros Htk. split_and!.
  - simpl. unfold resume. rewrite Htk. simpl.
    by destruct (bool_decide (result ∈ aclosed s)).
  - apply pc_of_set_pc.
    unfold send_message, send. case_decide; simpl; eauto.
  - unfold on_subscribe_finally. case_decide; simpl; [|done].
    split; [done|]. reflexivity.
  - apply unsubscribe_frame.
  - unfold unsubscribe. destruct (registry_get (operations s) op_id); [|done].
    split; [|done]. simpl. by rewrite <- app_assoc.
  - intros Hstored. simpl. unfold resume, unsubscribe.
    rewrite Hstored. simpl. rewrite Htk. simpl.
    rewrite bool_decide_eq_true_2; [done|]. apply list_elem_of_here.
Qed.

End operations.

(** ** The life of a registered operation *)

Section streaming.

Context {GraphQLError : Type}.
Context (format_error : GraphQLError -> pyval).
Context (loads : option string -> Exception + OperationMessage.t).

Abbreviation resumed := (resume format_error loads).
Abbreviation step := (step format_error loads).
Abbreviation run := (run format_error loads).
Abbreviation payload_of := (send_execution_result_payload format_error).
Abbreviation taken_by := (taken (GraphQLError := GraphQLError)).
Abbreviation produced := (produced format_error loads).

Lemma envelopes_emit type who e s :
  envelopes type who (emit who e s)
  = envelopes type who s
    ++ match e with
       | EvSend data => if has_type type data then [data] else []
       | _ => []
       end.
Proof.
  unfold envelopes, events_by. simpl. rewrite events_of_snoc.
  unfold sent. rewrite omap_app, filter_app. f_equal.
  destruct e; try done. simpl.
  destruct (has_type type data) eqn:E.
  - by rewrite filter_cons, decide_True.
  - rewrite filter_cons, decide_False; [done|]. by rewrite E.
Qed.

Lemma envelopes_finally type t op_id result s :
  envelopes type (Some t) (on_subscribe_finally t op_id result s)
  = envelopes type (Some t) s
    ++ if decide (registry_get (operations s) op_id = Some result)
       then if has_type type (send_message_data op_id COMPLETE PNone)
            then [send_message_data op_id COMPLETE PNone] else []
       else [].
Proof.
  unfold on_subscribe_finally. case_decide.
  - unfold finish, send_message, send.
    change (envelopes type (Some t) (set_pc t Done ?s'))
      with (envelopes type (Some t) s').
    rewrite envelopes_emit. done.
  - by rewrite app_nil_r.
Qed.

Lemma pc_of_finally t op_id result s :
  is_Some (pool s !! t) ->
  pc_of (on_subscribe_finally t op_id result s) t = Some Done.
Proof.
  intros Htk. apply pc_of_set_pc.
  unfold send_message, send. by case_decide.
Qed.

(** An iterating task is resumed: it ends through the [finally] clause, or
    sends one [next] envelope for the value it takes, or stays as it is. *)
Lemma resume_iterating t o s op_id result cancelled :
  pool s !! t = Some (Task (Iterating op_id result) cancelled) ->
  (resumed t o s = on_subscribe_finally t op_id result s
   /\ taken_by t (Resume t o) s = [])
  \/ (exists val, o = ReturnsResult val /\ taken_by t (Resume t o) s = [val]
      /\ resumed t o s
         = send_execution_result format_error (Some t) op_id val true s)
  \/ (resumed t o s = s /\ taken_by t (Resume t o) s = []).
Proof.
  intros Htk. unfold resume, taken, consumes.
  rewrite Htk. simpl.
  destruct cancelled; simpl.
  { left. split; [done|]. destruct o; try done. by rewrite andb_false_r. }
  destruct (bool_decide (result ∈ aclosed s)); simpl.
  { left. split; [done|]. destruct o; try done. by rewrite andb_false_r. }
  destruct o as [|val| | |exc|exc]; simpl.
  - by right; right.
  - right; left. exists val. by rewrite bool_decide_eq_true_2.
  - by right; right.
  - by left.
  - by left.
  - by right; right.
Qed.

Lemma next_envelopes_step a s t op_id result :
  pc_of s t = Some (Iterating op_id result) ->
  (pc_of (step a s) t = Some (Iterating op_id result)
   \/ pc_of (step a s) t = Some Done)
  /\ envelopes NEXT (Some t) (step a s)
     = envelopes NEXT (Some t) s
       ++ ((fun val => send_message_data op_id NEXT
                         (PDict (payload_of val true)))
           <$> taken_by t a s).
Proof.
  intros Hpc.
  assert (exists cancelled,
            pool s !! t = Some (Task (Iterating op_id result) cancelled))
    as [cancelled Htk].
  { unfold pc_of in Hpc. destruct (pool s !! t) as [[c cancelled]|]; [|done].
    simpl in Hpc. injection Hpc as ->. eauto. }
  destruct (decide (actor a = Some t)) as [E|Hne].
  - destruct a as [| | |t' o]; try discriminate. simpl in E. injection E as ->.
    change (step (Resume t o) s) with (resumed t o s).
    destruct (resume_iterating t o s op_id result cancelled Htk)
      as [[-> ->]|[(val & -> & -> & ->)|[-> ->]]].
    + split; [right; apply pc_of_finally; eauto|].
      rewrite envelopes_finally. f_equal. case_decide; [|done].
      by rewrite has_type_send_message_data.
    + split; [left; exact Hpc|].
      unfold send_execution_result, send_message, send.
      rewrite envelopes_emit. simpl.
      by rewrite has_type_send_message_data.
    + split; [by left|]. by rewrite app_nil_r.
  - split.
    + left. rewrite pc_of_step_other; eauto.
    + unfold envelopes. rewrite events_by_step_other by done.
      assert (taken_by t a s = []) as ->; [|by rewrite app_nil_r].
      destruct a as [| | |t' o]; try done. destruct o; try done. simpl.
      rewrite bool_decide_eq_false_2; [done|]. intros ->. by apply Hne.
Qed.

Lemma produced_done schedule s t :
  pc_of s t = Some Done -> produced t schedule s = [].
Proof.
  revert s. induction schedule as [|a schedule IH]; intros s Hd; [done|].
  simpl. rewrite IH by by apply pc_of_step_done.
  assert (consumes s t = false) as Hc.
  { unfold consumes. unfold pc_of in Hd.
    destruct (pool s !! t) as [[c cancelled]|]; [|done].
    simpl in Hd. by injection Hd as ->. }
  destruct a as [| | |t' o]; try done. destruct o; try done. simpl.
  by rewrite Hc, andb_false_r.
Qed.

(** C7, as amended. Along any schedule, the [next] envelopes that a
    registered operation sends are, in this order, one envelope for each
    value that its sequence produces, under the id of the operation, built
    by [send_execution_result] with [has_next] true: [hasNext] is true in
    the payload of a value that has data and absent for a value without. *)
Theorem next_envelopes_in_production_order (s : state) (t : nat)
    (op_id : option string) (result : handle) (schedule : list action) :
  pc_of s t = Some (Iterating op_id result) ->
  envelopes NEXT (Some t) (run schedule s)
  = envelopes NEXT (Some t) s
    ++ ((fun val => send_message_data op_id NEXT
                      (PDict (payload_of val true)))
        <$> produced t schedule s)
  /\ forall val,
       getitem (payload_of val true) "hasNext"
       = if truthy (ExecutionResult.data val) then Some (PBool true) else None.
Proof.
  intros Hpc. split; [|intros val; apply has_next_field].
  revert s Hpc. induction schedule as [|a schedule IH]; intros s Hpc.
  - simpl. by rewrite app_nil_r.
  - simpl. destruct (next_envelopes_step a s t op_id result Hpc) as [[Hi|Hd] E].
    + rewrite IH by done. rewrite E, fmap_app. by rewrite app_assoc.
    + unfold envelopes in *.
      destruct (run_done format_error loads schedule _ t Hd) as [_ ->].
      rewrite E, produced_done by done. by rewrite app_nil_r.
Qed.

Lemma ends_by_finally a s t op_id result :
  pc_of s t = Some (Iterating op_id result) ->
  pc_of (step a s) t = Some Done ->
  step a s = on_subscribe_finally t op_id result s.
Proof.
  intros Hpc Hd.
  assert (exists cancelled,
            pool s !! t = Some (Task (Iterating op_id result) cancelled))
    as [cancelled Htk].
  { unfold pc_of in Hpc. destruct (pool s !! t) as [[c cancelled]|]; [|done].
    simpl in Hpc. injection Hpc as ->. eauto. }
  destruct (decide (actor a = Some t)) as [E|Hne].
  - destruct a as [| | |t' o]; try discriminate. simpl in E. injection E as ->.
    change (step (Resume t o) s) with (resumed t o s) in *.
    destruct (resume_iterating t o s op_id result cancelled Htk)
      as [[E _]|[(val & _ & _ & E)|[E _]]]; [done|..];
      rewrite E in Hd; unfold pc_of in Hd, Hpc; simpl in Hd; congruence.
  - rewrite pc_of_step_other in Hd by eauto. congruence.
Qed.

End streaming.

(** * Scenarios *)

Ltac evaluate := vm_compute; reflexivity.

(** Scenario E: a text that is not JSON. *)
Lemma on_message_decode_failure_witness :
  pool (fixture_run [Receive (Some "not json")] init) !! 0
  = Some (Task (Pending (Some "not json")) false)
  /\ fixture_loads (Some "not json")
     = inl (Exc "Expecting value: line 1 column 1 (char 0)")
  /\ trace (fixture_step (Resume 0 ReturnsNone)
              (fixture_run [Receive (Some "not json")] init))
     = [(None, EvOnOpen);
        (Some 0,
         EvSend [("type", PStr "error");
                 ("payload",
                  PDict [("message",
                          PStr "Expecting value: line 1 column 1 (char 0)")])])].
Proof.
  split; [evaluate|]. split; [evaluate|].
  pose proof (on_message_decode_failure fixture_format_error fixture_loads
                (fixture_run [Receive (Some "not json")] init) 0
                (Some "not json")
                (Exc "Expecting value: line 1 column 1 (char 0)")
                ReturnsNone [] ltac:(evaluate) ltac:(evaluate)) as (H & _).
  unfold fixture_step. rewrite H. evaluate.
Defined.

(** Scenario A: [connection_init] is answered with [connection_ack]; a
    failing [on_connect] closes the connection instead. *)
Lemma on_connection_init_handshake_witness :
  pool (fixture_run [Receive (Some connection_init_text)] init) !! 0
  = Some (Task (Pending (Some connection_init_text)) false)
  /\ fixture_loads (Some connection_init_text)
     = inr (OperationMessage.make CONNECTION_INIT None None)
  /\ trace (fixture_step (Resume 0 ReturnsNone)
              (fixture_step (Resume 0 ReturnsNone)
                 (fixture_run [Receive (Some connection_init_text)] init)))
     = [(None, EvOnOpen); (Some 0, EvOnConnect None);
        (Some 0, EvSend [("type", PStr "connection_ack")])]
  /\ trace (fixture_step (Resume 0 (Raises (Exc "forbidden")))
              (fixture_step (Resume 0 ReturnsNone)
                 (fixture_run [Receive (Some connection_init_text)] init)))
     = [(None, EvOnOpen); (Some 0, EvOnConnect None);
        (Some 0, EvClose WS_INTERNAL_ERROR)].
Proof.
  split; [evaluate|]. split; [evaluate|].
  pose proof (on_connection_init_handshake fixture_format_error fixture_loads
                (fixture_run [Receive (Some connection_init_text)] init) 0
                (Some connection_init_text) None None ReturnsNone
                (Exc "forbidden") ltac:(evaluate) ltac:(evaluate))
    as (Hcall & _ & Hraise & _ & Hack & _).
  unfold fixture_step. rewrite Hack, Hraise, Hcall. split; evaluate.
Defined.

(** Scenario D: a second [subscribe] under the id of a running operation. *)
Lemma on_subscribe_duplicate_id_witness :
  pool (fixture_run
          (one_subscription
           ++ [Receive (Some (subscribe_text "subscription{feed}"))]) init)
    !! 1
  = Some (Task (Pending (Some (subscribe_text "subscription{feed}"))) false)
  /\ fixture_loads (Some (subscribe_text "subscription{feed}"))
     = inr (OperationMessage.make SUBSCRIBE (Some "1") (Some feed_payload))
  /\ registry_get
       (operations
          (fixture_run
             (one_subscription
              ++ [Receive (Some (subscribe_text "subscription{feed}"))]) init))
       (Some "1") = Some 0
  /\ trace (fixture_step (Resume 1 ReturnsNone)
              (fixture_run
                 (one_subscription
                  ++ [Receive (Some (subscribe_text "subscription{feed}"))])
                 init))
     = [(None, EvOnOpen); (Some 0, EvSubscribe feed_payload);
        (Some 1, EvClose WS_ERROR_ID_ALREADY_EXISTS)].
Proof.
  split; [evaluate|]. split; [evaluate|]. split; [evaluate|].
  pose proof (on_subscribe_duplicate_id fixture_format_error fixture_loads
                (fixture_run
                   (one_subscription
                    ++ [Receive (Some (subscribe_text "subscription{feed}"))])
                   init)
                1 (Some (subscribe_text "subscription{feed}")) (Some "1")
                (Some feed_payload) ReturnsNone []
                ltac:(evaluate) ltac:(evaluate)
                ltac:(exists 0; evaluate)) as (H & _).
  unfold fixture_step. rewrite H. evaluate.
Defined.

(** Scenario B: a query is answered with one [next] envelope. *)
Lemma on_subscribe_single_result_witness :
  pool (run fixture_format_error fixture_loads
          [Receive (Some (subscribe_text "query{ping}")); Resume 0 ReturnsNone]
          init) !! 0
  = Some (Task (AwaitEngine (Some "1")) false)
  /\ sent (events_by (Some 0)
             (run fixture_format_error fixture_loads []
                (step fixture_format_error fixture_loads
                   (Resume 0 (ReturnsResult pong))
                   (run fixture_format_error fixture_loads
                      [Receive (Some (subscribe_text "query{ping}"));
                       Resume 0 ReturnsNone] init))))
     = [[("type", PStr "next"); ("id", PStr "1");
         ("payload", PDict [("data", PDict [("ping", PStr "pong")]);
                            ("hasNext", PBool false)])]].
Proof.
  split; [evaluate|].
  pose proof (on_subscribe_single_result fixture_format_error fixture_loads
                [Receive (Some (subscribe_text "query{ping}"));
                 Resume 0 ReturnsNone]
                0 (Some "1") pong [] ltac:(evaluate)) as (H & _).
  rewrite H. evaluate.
Defined.

(** A query that fails: the one [next] envelope carries the errors and no
    field [hasNext]. *)
Lemma on_subscribe_single_result_counterexample :
  sent (events_by (Some 0)
          (fixture_run [Receive (Some (subscribe_text "query{ping}"));
                        Resume 0 ReturnsNone;
                        Resume 0 (ReturnsResult failed)] init))
  = [[("type", PStr "next"); ("id", PStr "1");
      ("payload", PDict [("errors", PList [PDict [("message", PStr "boom")]])])]]
  /\ getitem [("errors", PList [PDict [("message", PStr "boom")]])] "hasNext"
     <> Some (PBool false).
Proof. split; [evaluate|discriminate]. Qed.

(** Natural exhaustion of the one subscription, and its explicit
    unsubscription by a second task. *)
Lemma on_subscribe_finally_guard_witness :
  pool (fixture_run one_subscription init) !! 0
  = Some (Task (Iterating (Some "1") 0) false)
  /\ trace (fixture_step (Resume 0 RaisesStopAsyncIteration)
              (fixture_run one_subscription init))
     = [(None, EvOnOpen); (Some 0, EvSubscribe feed_payload);
        (Some 0, EvSend [("type", PStr "complete"); ("id", PStr "1")])]
  /\ operations (fixture_step (Resume 0 RaisesStopAsyncIteration)
                   (fixture_run one_subscription init))
     = []
  /\ trace (unsubscribe (Some 1) (Some "1") (fixture_run one_subscription init))
     = [(None, EvOnOpen); (Some 0, EvSubscribe feed_payload);
        (Some 1, EvAclose 0); (Some 1, EvOperationComplete (Some "1"))].
Proof.
  split; [evaluate|].
  pose proof (on_subscribe_finally_guard fixture_format_error fixture_loads
                (fixture_run one_subscription init) 0 (Some "1") 0 (Some 1)
                ReturnsNone ltac:(evaluate))
    as (E & _ & Hfinally & _ & Hunsubscribe & _).
  rewrite decide_True in Hfinally by evaluate.
  destruct Hfinally as [Ho Ht].
  assert (registry_get (operations (fixture_run one_subscription init))
            (Some "1") = Some 0) as Hstored by evaluate.
  rewrite Hstored in Hunsubscribe. destruct Hunsubscribe as [Hu _].
  unfold fixture_step. rewrite E, Ht, Ho, Hu. repeat split; evaluate.
Defined.

(** Natural exhaustion of the one subscription: no [aclose] ran on its
    sequence and nobody called [on_operation_complete]. *)
Lemma on_subscribe_finally_guard_counterexample :
  ~ (0 ∈ aclosed (fixture_run (one_subscription
                               ++ [Resume 0 RaisesStopAsyncIteration]) init))
  /\ ~ (exists who,
          (who, EvOperationComplete (Some "1"))
          ∈ trace (fixture_run (one_subscription
                                ++ [Resume 0 RaisesStopAsyncIteration]) init))
  /\ trace (fixture_run (one_subscription
                         ++ [Resume 0 RaisesStopAsyncIteration]) init)
     = [(None, EvOnOpen); (Some 0, EvSubscribe feed_payload);
        (Some 0, EvSend [("type", PStr "complete"); ("id", PStr "1")])].
Proof.
  assert (trace (fixture_run (one_subscription
                              ++ [Resume 0 RaisesStopAsyncIteration]) init)
          = [(None, EvOnOpen); (Some 0, EvSubscribe feed_payload);
             (Some 0, EvSend [("type", PStr "complete"); ("id", PStr "1")])])
    as Htrace by evaluate.
  assert (aclosed (fixture_run (one_subscription
                                ++ [Resume 0 RaisesStopAsyncIteration]) init)
          = []) as Hclosed by evaluate.
  rewrite Htrace, Hclosed. split; [|split]; [| |done].
  - apply not_elem_of_nil.
  - intros [who H]. apply list_elem_of_In in H. simpl in H.
    destruct H as [H|[H|[H|[]]]]; discriminate H.
Qed.

(** Three values, the second one without data, then exhaustion. *)
Lemma next_envelopes_in_production_order_witness :
  pc_of (fixture_run one_subscription init) 0 = Some (Iterating (Some "1") 0)
  /\ envelopes NEXT (Some 0)
       (run fixture_format_error fixture_loads
          [Resume 0 (ReturnsResult (feed 1));
           Resume 0 (ReturnsResult failed);
           Resume 0 (ReturnsResult (feed 2));
           Resume 0 RaisesStopAsyncIteration]
          (fixture_run one_subscription init))
     = [[("type", PStr "next"); ("id", PStr "1");
         ("payload", PDict [("data", PDict [("feed", PInt 1)]);
                            ("hasNext", PBool true)])];
        [("type", PStr "next"); ("id", PStr "1");
         ("payload",
          PDict [("errors", PList [PDict [("message", PStr "boom")]])])];
        [("type", PStr "next"); ("id", PStr "1");
         ("payload", PDict [("data", PDict [("feed", PInt 2)]);
                            ("hasNext", PBool true)])]].
Proof.
  split; [evaluate|].
  pose proof (next_envelopes_in_production_order fixture_format_error
                fixture_loads (fixture_run one_subscription init) 0 (Some "1")
                0
                [Resume 0 (ReturnsResult (feed 1));
                 Resume 0 (ReturnsResult failed);
                 Resume 0 (ReturnsResult (feed 2));
                 Resume 0 RaisesStopAsyncIteration] ltac:(evaluate)) as [H _].
  rewrite H. evaluate.
Defined.

(** A value without data: its [next] envelope has no field [hasNext]. *)
Lemma next_envelopes_in_production_order_counterexample :
  envelopes NEXT (Some 0)
    (fixture_run (one_subscription ++ [Resume 0 (ReturnsResult failed)]) init)
  = [[("type", PStr "next"); ("id", PStr "1");
      ("payload", PDict [("errors", PList [PDict [("message", PStr "boom")]])])]]
  /\ getitem [("errors", PList [PDict [("message", PStr "boom")]])] "hasNext"
     <> Some (PBool true).
Proof. split; [evaluate|discriminate]. Qed.


(** The same two messages: the second [subscribe] calls the engine and
    closes nothing; once the engine has answered both, the two operations
    run under the id 1, each on a sequence of its own, and the registry,
    which held the first sequence, holds the second. *)
Lemma on_subscribe_duplicate_id_counterexample :
  trace (fixture_run racing_subscriptions init)
  = [(None, EvOnOpen); (Some 0, EvSubscribe feed_payload);
     (Some 1, EvSubscribe feed_payload)]
  /\ operations (fixture_run racing_subscriptions init) = [(Some "1", 0)]
  /\ pc_of (fixture_run (racing_subscriptions ++ [Resume 1 ReturnsIterator])
              init) 0
     = Some (Iterating (Some "1") 0)
  /\ pc_of (fixture_run (racing_subscriptions ++ [Resume 1 ReturnsIterator])
              init) 1
     = Some (Iterating (Some "1") 1)
  /\ operations (fixture_run (racing_subscriptions ++ [Resume 1 ReturnsIterator])
                   init)
     = [(Some "1", 1)]
  /\ trace (fixture_run (racing_subscriptions ++ [Resume 1 ReturnsIterator])
              init)
     = [(None, EvOnOpen); (Some 0, EvSubscribe feed_payload);
        (Some 1, EvSubscribe feed_payload)].
Proof. repeat split; evaluate. Qed.

(** * Further properties *)

(** ** Control messages *)

Section control.

Context {GraphQLError : Type}.
Context (format_error : GraphQLError -> pyval).
Context (loads : option string -> Exception + OperationMessage.t).

Abbreviation step := (step format_error loads).
Abbreviation run := (run format_error loads).

Lemma resume_pending t o s message :
  pool s !! t = Some (Task (Pending message) false) ->
  step (Resume t o) s = on_message loads t message s.
Proof. intros Htk. simpl. unfold resume. by rewrite Htk. Qed.

Lemma finished t s s' :
  pool s' = pool s -> is_Some (pool s !! t) -> pc_of (finish t s') t = Some Done.
Proof. intros E Htk. apply pc_of_set_pc. by rewrite E. Qed.

(** X1. A [ping] message, whatever its id and payload, is answered with one
    [pong] envelope without id and without payload; the task of the message
    does nothing else, ever, and the registry and the sequences are left
    alone. *)
Theorem on_ping_pong (s : state) (t : nat) (message : option string)
    (op_id : option string) (payload : option OperationMessagePayload)
    (o : outcome) (schedule : list action) :
  pool s !! t = Some (Task (Pending message) false) ->
  loads message = inr (OperationMessage.make PING op_id payload) ->
  trace (step (Resume t o) s)
  = trace s ++ [(Some t, EvSend [("type", PStr "pong")])]
  /\ events_by (Some t) (run schedule (step (Resume t o) s))
     = events_by (Some t) s ++ [EvSend [("type", PStr "pong")]]
  /\ operations (step (Resume t o) s) = operations s
  /\ aclosed (step (Resume t o) s) = aclosed s
  /\ pc_of (run schedule (step (Resume t o) s)) t = Some Done.
Proof.
  intros Htk He. rewrite (resume_pending t o s message Htk).
  unfold on_message. rewrite He. simpl.
  assert (pc_of (finish t (on_ping (Some t) s)) t = Some Done) as Hd
    by (apply (finished t s); [done|eauto]).
  destruct (run_done format_error loads schedule _ t Hd) as [-> ->].
  split_and!; try done.
  unfold events_by. simpl. apply events_of_snoc.
Qed.

(** X2. A decoded message of a type without handler ([connection_ack],
    [next], [error], [pong]) is dropped: nothing is sent or closed, no hook
    and no engine is called, now or later, and the registry, the sequences
    and the receive loop are as before; the task is over. *)
Theorem on_message_unhandled_type (s : state) (t : nat)
    (message : option string) (loaded : OperationMessage.t) (o : outcome)
    (schedule : list action) :
  pool s !! t = Some (Task (Pending message) false) ->
  loads message = inr loaded ->
  OperationMessage.type loaded ∉ [CONNECTION_INIT; SUBSCRIBE; COMPLETE; PING] ->
  trace (step (Resume t o) s) = trace s
  /\ operations (step (Resume t o) s) = operations s
  /\ aclosed (step (Resume t o) s) = aclosed s
  /\ loop (step (Resume t o) s) = loop s
  /\ events_by (Some t) (run schedule (step (Resume t o) s))
     = events_by (Some t) s
  /\ pc_of (run schedule (step (Resume t o) s)) t = Some Done.
Proof.
  intros Htk He Htype. rewrite (resume_pending t o s message Htk).
  unfold on_message. rewrite He.
  assert (pc_of (finish t s) t = Some Done) as Hd
    by (apply (finished t s); [done|eauto]).
  destruct (run_done format_error loads schedule _ t Hd) as [Hpc Hev].
  destruct (OperationMessage.type loaded);
    try (exfalso; apply Htype; by repeat constructor);
    by rewrite Hpc, Hev.
Qed.

(** X3. A [complete] message names the id [loaded.id or ""].  If the
    registry has no entry under it, nothing at all happens: nothing is sent,
    closed or called, now or later.  If it has one, the task closes the
    stored sequence and calls [on_operation_complete] once, sends nothing
    itself, and leaves the entry in the registry. *)
Theorem on_complete_message (s : state) (t : nat) (message : option string)
    (op_id : option string) (payload : option OperationMessagePayload)
    (o : outcome) (schedule : list action) :
  pool s !! t = Some (Task (Pending message) false) ->
  loads message = inr (OperationMessage.make COMPLETE op_id payload) ->
  operations (step (Resume t o) s) = operations s
  /\ pc_of (run schedule (step (Resume t o) s)) t = Some Done
  /\ match registry_get (operations s) (Some (default EmptyString op_id)) with
     | None =>
         trace (step (Resume t o) s) = trace s
         /\ aclosed (step (Resume t o) s) = aclosed s
         /\ events_by (Some t) (run schedule (step (Resume t o) s))
            = events_by (Some t) s
     | Some operation =>
         aclosed (step (Resume t o) s) = operation :: aclosed s
         /\ events_by (Some t) (run schedule (step (Resume t o) s))
            = events_by (Some t) s
              ++ [EvAclose operation;
                  EvOperationComplete (Some (default EmptyString op_id))]
     end.
Proof.
  intros Htk He. rewrite (resume_pending t o s message Htk).
  unfold on_message. rewrite He. simpl. unfold on_complete.
  assert (pc_of (finish t (unsubscribe (Some t)
                             (Some (default EmptyString op_id)) s)) t
          = Some Done) as Hd.
  { apply (finished t s); [|eauto]. apply unsubscribe_frame. }
  destruct (run_done format_error loads schedule _ t Hd) as [-> ->].
  split; [apply unsubscribe_frame|]. split; [done|].
  unfold unsubscribe.
  destruct (registry_get (operations s) (Some (default EmptyString op_id)));
    [|done].
  split; [done|]. unfold events_by. simpl.
  by rewrite !events_of_snoc, <- app_assoc.
Qed.

End control.

(** ** The payload of a [next] envelope *)

(** X4. [send_execution_result] hands one [next] envelope to the connection.
    The envelope always has a payload, which is an object: with [data] and
    [hasNext], in this order, exactly when the result has data that is not
    empty; then with [errors], the formatted errors in their order, exactly
    when the result has a list of errors that is not empty; and with no
    other field.  A result with neither gives the empty object. *)
Theorem send_execution_result_envelope {GraphQLError : Type}
    (format_error : GraphQLError -> pyval) (who : option nat)
    (op_id : option string) (execution_result : ExecutionResult.t GraphQLError)
    (has_next : bool) (s : state) :
  trace (send_execution_result format_error who op_id execution_result
           has_next s)
  = trace s
    ++ [(who,
         EvSend (send_message_data op_id NEXT
                   (PDict (send_execution_result_payload format_error
                             execution_result has_next))))]
  /\ getitem (send_message_data op_id NEXT
                (PDict (send_execution_result_payload format_error
                          execution_result has_next))) "payload"
     = Some (PDict (send_execution_result_payload format_error
                      execution_result has_next))
  /\ send_execution_result_payload format_error execution_result has_next
     = (if truthy (ExecutionResult.data execution_result)
        then [("data", ExecutionResult.data execution_result);
              ("hasNext", PBool has_next)]
        else [])
       ++ match ExecutionResult.errors execution_result with
          | Some (error :: errors) =>
              [("errors", PList (format_error <$> error :: errors))]
          | _ => []
          end
  /\ (send_execution_result_payload format_error execution_result has_next = []
      <-> truthy (ExecutionResult.data execution_result) = false
          /\ (ExecutionResult.errors execution_result = None
              \/ ExecutionResult.errors execution_result = Some [])).
Proof.
  split; [reflexivity|]. split; [by destruct op_id|].
  unfold send_execution_result_payload.
  destruct (truthy (ExecutionResult.data execution_result));
    destruct (ExecutionResult.errors execution_result) as [[|error errors]|];
    (split; [reflexivity|]); split; try done; try (intros [? [?|?]]; done);
    intros _; eauto.
Qed.

(** ** The receive loop *)

Lemma receive_cases (frame : aiohttp.WSMessage.t) :
  aiohttp.receive frame
  = if closing frame then inl aiohttp.ConnectionClosed
    else inr (received frame).
Proof.
  destruct frame as [type data]. unfold aiohttp.receive, closing, received.
  simpl. by destruct type.
Qed.

Lemma handle_message_frame message s :
  pool (handle_message message s) = pool s ++ [Task (Pending message) false]
  /\ operations (handle_message message s) = operations s
  /\ loop (handle_message message s) = loop s
  /\ trace (handle_message message s) = trace s.
Proof. done. Qed.

Lemma handle_connection_closed_frame s :
  pool (handle_connection_closed s) = pool s
  /\ operations (handle_connection_closed s) = operations s
  /\ loop (handle_connection_closed s) = Closing.
Proof.
  unfold handle_connection_closed. simpl.
  destruct (on_close_frame (prune s)) as (-> & -> & _). done.
Qed.

(** X5. Fed with the frames of the socket, the receive loop creates one task
    of [on_message] for each frame that comes before the first CLOSED,
    CLOSING or ERROR frame, in the order of arrival: with the text of a TEXT
    frame, with [None] for a frame of any other type.  The registry is not
    touched.  At the first CLOSED, CLOSING or ERROR frame the loop is left
    and no later frame is read; without such a frame the loop goes on and
    nothing but the tasks has changed. *)
Theorem handle_frames_dispatch (frames : list aiohttp.WSMessage.t) (s : state) :
  pool (handle_frames frames s)
  = pool s
    ++ ((fun frame => Task (Pending (received frame)) false)
        <$> before_close frames)
  /\ operations (handle_frames frames s) = operations s
  /\ if existsb closing frames then
       loop (handle_frames frames s) = Closing
       /\ forall later, handle_frames (frames ++ later) s
                        = handle_frames frames s
     else
       loop (handle_frames frames s) = loop s
       /\ trace (handle_frames frames s) = trace s
       /\ before_close frames = frames.
Proof.
  revert s. induction frames as [|frame frames IH]; intros s;
    cbn [handle_frames before_close existsb fmap list_fmap].
  - by rewrite app_nil_r.
  - rewrite receive_cases. destruct (closing frame) eqn:Hc;
      cbn [orb fmap list_fmap].
    + destruct (handle_connection_closed_frame s) as (-> & -> & ->).
      rewrite app_nil_r. split_and!; try done.
      intros later. cbn [app handle_frames]. by rewrite receive_cases, Hc.
    + destruct (IH (handle_message (received frame) s)) as (-> & -> & Hrest).
      destruct (handle_message_frame (received frame) s)
        as (-> & -> & Hloop & Htrace).
      rewrite <- app_assoc. split_and!; try done.
      destruct (existsb closing frames).
      * destruct Hrest as [-> Hlater]. split; [done|].
        intros later. cbn [app handle_frames]. rewrite receive_cases, Hc.
        apply Hlater.
      * destruct Hrest as (-> & -> & ->). by rewrite Hloop, Htrace.
Qed.

(** ** The registry and the tasks along a run *)

Lemma registry_get_set (r : registry) (op_id op_id' : option string)
    (result : handle) :
  registry_get (registry_set r op_id result) op_id'
  = if bool_decide (op_id = op_id') then Some result
    else registry_get r op_id'.
Proof.
  induction r as [|[k result'] r IH]; simpl.
  - done.
  - destruct (decide (k = op_id)) as [->|Hk].
    + rewrite bool_decide_eq_true_2 by done. simpl.
      by destruct (bool_decide (op_id = op_id')).
    + rewrite (bool_decide_eq_false_2 (k = op_id)) by done. simpl. rewrite IH.
      destruct (decide (k = op_id')) as [->|Hk'].
      * rewrite bool_decide_eq_true_2 by done.
        by rewrite bool_decide_eq_false_2 by congruence.
      * by rewrite (bool_decide_eq_false_2 (k = op_id')) by done.
Qed.

Lemma registry_get_del_ne (r : registry) (op_id op_id' : option string) :
  op_id <> op_id' ->
  registry_get (registry_del r op_id) op_id' = registry_get r op_id'.
Proof.
  intros Hne. induction r as [|[k result] r IH]; simpl; [done|].
  destruct (decide (k = op_id)) as [->|Hk].
  - rewrite bool_decide_eq_true_2 by done.
    by rewrite (bool_decide_eq_false_2 (op_id = op_id')) by done.
  - rewrite (bool_decide_eq_false_2 (k = op_id)) by done. simpl.
    by rewrite IH.
Qed.

Lemma registry_get_nil (r : registry) :
  (forall op_id, registry_get r op_id = None) -> r = [].
Proof.
  destruct r as [|[k result] r]; [done|]. intros H. specialize (H k).
  simpl in H. by rewrite bool_decide_eq_true_2 in H.
Qed.

Lemma registry_get_key (r : registry) (op_id : option string) (result : handle) :
  registry_get r op_id = Some result -> op_id ∈ r.*1.
Proof.
  induction r as [|[k result'] r IH]; simpl; [done|].
  case_bool_decide as Hk.
  - intros _. subst. by left.
  - intros Hget. right. by apply IH.
Qed.

(** The events of the teardown of one registry entry. *)
Lemma unsubscribe_all_trace (r : registry) (op_ids : list (option string))
    (s : state) :
  operations s = r ->
  trace (foldl (fun s op_id => unsubscribe None op_id s) s op_ids)
  = trace s
    ++ flat_map (fun op_id =>
                   match registry_get r op_id with
                   | Some operation =>
                       [(None, EvAclose operation);
                        (None, EvOperationComplete op_id)]
                   | None => []
                   end) op_ids
  /\ forall op_id operation,
       op_id ∈ op_ids -> registry_get r op_id = Some operation ->
       operation
       ∈ aclosed (foldl (fun s op_id => unsubscribe None op_id s) s op_ids).
Proof.
  revert s. induction op_ids as [|op_id op_ids IH]; intros s Hr; simpl.
  - split; [by rewrite app_nil_r|]. intros ? ? H. by apply elem_of_nil in H.
  - destruct (unsubscribe_frame None op_id s) as [_ Hops].
    destruct (IH (unsubscribe None op_id s)) as [Htrace Hclosed];
      [by rewrite Hops|].
    assert (forall operation,
              operation ∈ aclosed (unsubscribe None op_id s) ->
              operation
              ∈ aclosed (foldl (fun s op_id => unsubscribe None op_id s)
                           (unsubscribe None op_id s) op_ids)) as Hmono.
    { clear. generalize (unsubscribe None op_id s). clear.
      induction op_ids as [|op_id op_ids IH]; intros s operation Hin; [done|].
      simpl. apply IH. unfold unsubscribe, aclose.
      case_match; [|done]. simpl. by right. }
    split.
    + rewrite Htrace. unfold unsubscribe. rewrite Hr.
      destruct (registry_get r op_id); simpl; [|done].
      by rewrite <- !app_assoc.
    + intros op_id' operation Hin Hget.
      apply elem_of_cons in Hin as [->|Hin]; [|by eapply Hclosed].
      apply Hmono. unfold unsubscribe. rewrite Hr, Hget. simpl. by left.
Qed.

Ltac unfold_handlers :=
  unfold on_message, on_connection_init_resumed, on_subscribe_resumed,
    on_subscribe_iterate, on_subscribe_finally, on_subscribe,
    on_connection_init, on_complete, on_ping, send_execution_result,
    send_error, send_message, send, close, finish, unsubscribe, aclose.

Section invariants.

Context {GraphQLError : Type}.
Context (format_error : GraphQLError -> pyval).
Context (loads : option string -> Exception + OperationMessage.t).

Abbreviation resumed := (resume format_error loads).
Abbreviation step := (step format_error loads).
Abbreviation run := (run format_error loads).

(** What a resumption can do to the state, by where the task is. *)
Lemma resume_early t o s tk :
  pool s !! t = Some tk ->
  (forall op_id, at_pc tk <> AwaitEngine op_id) ->
  (forall op_id result, at_pc tk <> Iterating op_id result) ->
  operations (resumed t o s) = operations s
  /\ allocated (resumed t o s) = allocated s
  /\ (pool (resumed t o s) = pool s
      \/ exists c, (forall op_id result, c <> Iterating op_id result)
                   /\ pool (resumed t o s)
                      = alter (fun tk => Task c (cancelled tk)) t (pool s)).
Proof.
  intros Htk Hne He. unfold resume. rewrite Htk.
  destruct (at_pc tk) eqn:Hat; try (by destruct (Hne op_id));
    try (by destruct (He op_id result)); [| |by eauto].
  - unfold_handlers. repeat case_match; simpl; split_and!; try done;
      by right; eexists; split; [|reflexivity].
  - unfold_handlers. repeat case_match; simpl; split_and!; try done; eauto;
      by right; eexists; split; [|reflexivity].
Qed.

Lemma resume_await_engine t o s op_id flag :
  pool s !! t = Some (Task (AwaitEngine op_id) flag) ->
  (operations (resumed t o s) = operations s
   /\ allocated (resumed t o s) = allocated s
   /\ (pool (resumed t o s) = pool s
       \/ pool (resumed t o s)
          = alter (fun tk => Task Done (cancelled tk)) t (pool s)))
  \/ (flag = false /\ o = ReturnsIterator
      /\ resumed t o s
         = set_pc t (Iterating op_id (allocated s))
             (ctx_setitem op_id (allocated s) (allocate s))).
Proof.
  intros Htk. unfold resume. rewrite Htk. simpl.
  destruct flag; [left; by eauto|].
  destruct o; simpl; eauto; left; by eauto.
Qed.

Lemma resume_frame t o s :
  tasks (resumed t o s) = tasks s /\ loop (resumed t o s) = loop s.
Proof.
  unfold resume. unfold_handlers. repeat case_match; by simpl.
Qed.

Lemma resume_aclosed t o s :
  aclosed (resumed t o s) = aclosed s
  \/ exists operation, aclosed (resumed t o s) = operation :: aclosed s.
Proof.
  unfold resume. unfold_handlers. repeat case_match; simpl; eauto.
Qed.

Lemma owned_step a s : owned s -> owned (step a s).
Proof.
  intros Ho op_id result Hget.
  destruct a as [message| | |t o]; simpl in *.
  - destruct (loop s); [|by apply Ho..].
    destruct (Ho op_id result Hget) as (t' & flag & Ht').
    exists t', flag. simpl. by apply lookup_app_l_Some.
  - destruct (loop s); [|by apply Ho..].
    destruct (handle_connection_closed_frame s) as (Hp & Hr & _).
    rewrite Hr in Hget. rewrite Hp. by apply Ho.
  - destruct (loop s); [by apply Ho| |by apply Ho].
    destruct (Ho op_id result Hget) as (t' & flag & Ht').
    exists t'. unfold handle_cancel. simpl.
    rewrite list_lookup_imap, Ht'. simpl. case_bool_decide; eauto.
  - destruct (pool s !! t) as [[c flag]|] eqn:Htk;
      [|unfold resume in *; rewrite Htk in *; by apply Ho].
    assert (forall t' flag',
              pool s !! t' = Some (Task (Iterating op_id result) flag') ->
              t' <> t ->
              forall c',
                exists t'' flag'',
                  alter (fun tk => Task c' (cancelled tk)) t (pool s) !! t''
                  = Some (Task (Iterating op_id result) flag'')) as Hother.
    { intros t' flag' Ht' Hne c'. exists t', flag'.
      by rewrite list_lookup_alter_ne. }
    destruct c as [message| |op_id0|op_id0 result0|].
    + destruct (resume_early t o s _ Htk) as (Hr & _ & Hp); [done..|].
      rewrite Hr in Hget. destruct (Ho op_id result Hget) as (t' & flag' & Ht').
      destruct Hp as [->|(c & _ & ->)]; [eauto|].
      apply (Hother t' flag'); [done|]. intros ->. congruence.
    + destruct (resume_early t o s _ Htk) as (Hr & _ & Hp); [done..|].
      rewrite Hr in Hget. destruct (Ho op_id result Hget) as (t' & flag' & Ht').
      destruct Hp as [->|(c & _ & ->)]; [eauto|].
      apply (Hother t' flag'); [done|]. intros ->. congruence.
    + destruct (resume_await_engine t o s _ _ Htk)
        as [(Hr & _ & Hp)|(-> & -> & E)].
      * rewrite Hr in Hget.
        destruct (Ho op_id result Hget) as (t' & flag' & Ht').
        destruct Hp as [->| ->]; [eauto|].
        apply (Hother t' flag'); [done|]. intros ->. congruence.
      * rewrite E in *. simpl in *. rewrite registry_get_set in Hget.
        case_bool_decide as Hid.
        -- injection Hget as <-. subst op_id0. exists t, false.
           by rewrite list_lookup_alter_eq, Htk.
        -- destruct (Ho op_id result Hget) as (t' & flag' & Ht').
           apply (Hother t' flag'); [done|]. intros ->. congruence.
    + destruct (resume_iterating format_error loads t o s _ _ _ Htk)
        as [[E _]|[(val & _ & _ & E)|[E _]]]; rewrite E in *;
        [|by apply Ho..].
      unfold on_subscribe_finally in *.
      destruct (decide (registry_get (operations s) op_id0 = Some result0))
        as [Hstored|Hstored]; simpl in *.
      * destruct (decide (op_id0 = op_id)) as [->|Hid].
        { by rewrite registry_get_del in Hget. }
        rewrite registry_get_del_ne in Hget by done.
        destruct (Ho op_id result Hget) as (t' & flag' & Ht').
        apply (Hother t' flag'); [done|]. intros ->. congruence.
      * destruct (Ho op_id result Hget) as (t' & flag' & Ht').
        apply (Hother t' flag'); [done|]. intros ->. congruence.
    + destruct (resume_early t o s _ Htk) as (Hr & _ & Hp); [done..|].
      rewrite Hr in Hget. destruct (Ho op_id result Hget) as (t' & flag' & Ht').
      destruct Hp as [->|(c & _ & ->)]; [eauto|].
      apply (Hother t' flag'); [done|]. intros ->. congruence.
Qed.

Lemma owned_run schedule s : owned s -> owned (run schedule s).
Proof.
  revert s. induction schedule as [|a schedule IH]; intros s Hs; [done|].
  simpl. by apply IH, owned_step.
Qed.

(** X6. Along every run, every entry of the registry is the sequence of an
    operation that is iterating it under that id at this moment: the
    registry never keeps the sequence of an operation that is over.  So
    once every task is over, the registry is empty. *)
Theorem registry_entries_owned (schedule : list action) :
  (forall op_id result,
     registry_get (operations (run schedule init)) op_id = Some result ->
     exists t flag,
       pool (run schedule init) !! t
       = Some (Task (Iterating op_id result) flag))
  /\ ((forall t tk, pool (run schedule init) !! t = Some tk -> at_pc tk = Done)
      -> operations (run schedule init) = []).
Proof.
  assert (owned (run schedule init)) as Ho.
  { apply owned_run. intros op_id result Hget. done. }
  split; [exact Ho|].
  intros Hdone. apply registry_get_nil. intros op_id.
  destruct (registry_get (operations (run schedule init)) op_id)
    as [result|] eqn:Hget; [|done].
  destruct (Ho op_id result Hget) as (t & flag & Ht).
  by specialize (Hdone t _ Ht).
Qed.

Lemma unsubscribe_all_tasks op_ids s :
  tasks (foldl (fun s op_id => unsubscribe None op_id s) s op_ids) = tasks s.
Proof.
  revert s. induction op_ids as [|op_id op_ids IH]; intros s; simpl; [done|].
  rewrite IH. unfold unsubscribe, aclose. by case_match.
Qed.

Lemma on_close_tasks s : tasks (on_close s) = tasks s.
Proof.
  unfold on_close. destruct (operations s) eqn:E; [done|].
  apply unsubscribe_all_tasks.
Qed.

Lemma resume_lookup t o s t' tk' :
  pool (resumed t o s) !! t' = Some tk' ->
  exists tk, pool s !! t' = Some tk
             /\ cancelled tk' = cancelled tk
             /\ (at_pc tk = Done -> at_pc tk' = Done).
Proof.
  intros Ht'. destruct (resume_pool format_error loads t o s) as [E|[c E]];
    rewrite E in Ht'; [by eauto|].
  destruct (decide (t = t')) as [<-|Hne].
  - rewrite list_lookup_alter_eq in Ht'.
    destruct (pool s !! t) as [tk|] eqn:Htk; [|done].
    simpl in Ht'. injection Ht' as <-. exists tk. split_and!; [done..|].
    intros Hd. simpl.
    assert (resumed t o s = s) as Hs.
    { apply resume_done. unfold pc_of. by rewrite Htk, <- Hd. }
    rewrite Hs in E.
    assert (pool s !! t
            = alter (fun tk0 => Task c (cancelled tk0)) t (pool s) !! t)
      as Hl by by rewrite <- E.
    rewrite list_lookup_alter_eq, Htk in Hl. simpl in Hl.
    injection Hl as Hl. rewrite Hl in Hd. done.
  - rewrite list_lookup_alter_ne in Ht' by done. eauto.
Qed.

Lemma tracked_step a s : tracked s -> tracked (step a s).
Proof.
  intros Hs t tk Htk Hpc.
  destruct a as [message| | |t0 o]; simpl in *.
  - destruct (loop s); [|by eapply Hs..]. simpl in *.
    apply list_elem_of_filter. split.
    + unfold done. simpl. rewrite Htk. by destruct (at_pc tk).
    + apply lookup_app_Some in Htk as [Htk|[Hlen Htk]].
      * right. by eapply Hs.
      * destruct (t - length (pool s)) as [|n] eqn:E; [|done].
        assert (t = length (pool s)) as -> by lia. by left.
  - destruct (loop s); [|by eapply Hs..].
    unfold handle_connection_closed in *. simpl in *.
    destruct (on_close_frame (prune s)) as (Hp & _).
    rewrite Hp in Htk. rewrite on_close_tasks. simpl in *.
    apply list_elem_of_filter. split.
    + unfold done. rewrite Htk. by destruct (at_pc tk).
    + by eapply Hs.
  - destruct (loop s); [by eapply Hs| |by eapply Hs]. simpl in *.
    rewrite list_lookup_imap in Htk.
    destruct (pool s !! t) as [tk0|] eqn:Htk0; [|done]. simpl in Htk.
    apply (Hs t tk0 Htk0). injection Htk as <-. by case_bool_decide.
  - destruct (resume_frame t0 o s) as [-> _].
    destruct (resume_lookup t0 o s t tk Htk) as (tk0 & Htk0 & _ & Hd).
    apply (Hs t tk0 Htk0). intros Hd0. by apply Hpc, Hd.
Qed.

Lemma tracked_run schedule s : tracked s -> tracked (run schedule s).
Proof.
  revert s. induction schedule as [|a schedule IH]; intros s Hs; [done|].
  simpl. by apply IH, tracked_step.
Qed.

Lemma all_cancelled_step a s :
  loop s = Closed -> all_cancelled s ->
  loop (step a s) = Closed /\ all_cancelled (step a s).
Proof.
  intros Hloop Hs. destruct a as [message| | |t0 o]; simpl;
    [by rewrite Hloop..|].
  destruct (resume_frame t0 o s) as [_ ->].
  split; [done|]. intros t tk Htk Hpc.
  destruct (resume_lookup t0 o s t tk Htk) as (tk0 & Htk0 & -> & Hd).
  apply (Hs t tk0 Htk0). intros Hd0. by apply Hpc, Hd.
Qed.

Lemma all_cancelled_run schedule s :
  loop s = Closed -> all_cancelled s ->
  loop (run schedule s) = Closed /\ all_cancelled (run schedule s).
Proof.
  revert s. induction schedule as [|a schedule IH]; intros s Hl Hs; [done|].
  simpl. destruct (all_cancelled_step a s Hl Hs). by apply IH.
Qed.

Lemma handle_cancel_all s :
  tracked s -> loop (handle_cancel s) = Closed /\ all_cancelled (handle_cancel s).
Proof.
  intros Hs. split; [done|]. intros t tk Htk Hpc. simpl in Htk.
  rewrite list_lookup_imap in Htk.
  destruct (pool s !! t) as [tk0|] eqn:Htk0; [|done]. simpl in Htk.
  injection Htk as <-. case_bool_decide as Hin; [done|].
  exfalso. by apply Hin, (Hs t tk0 Htk0).
Qed.

(** A cancelled task that is resumed ends: it does nothing, but for the
    [finally] clause of an operation that iterates. *)
Lemma resume_cancelled t o s tk :
  pool s !! t = Some tk -> cancelled tk = true ->
  pc_of (resumed t o s) t = Some Done
  /\ events_by (Some t) (resumed t o s)
     = events_by (Some t) s
       ++ match at_pc tk with
          | Iterating op_id result =>
              if decide (registry_get (operations s) op_id = Some result)
              then [EvSend (send_message_data op_id COMPLETE PNone)] else []
          | _ => []
          end.
Proof.
  intros Htk Hc. unfold resume. rewrite Htk, Hc.
  assert (is_Some (pool s !! t)) as Hsome by eauto.
  destruct (at_pc tk) eqn:Hat; simpl;
    try (split; [by apply pc_of_set_pc|by rewrite app_nil_r]).
  - split; [by apply pc_of_finally|]. unfold on_subscribe_finally.
    case_decide; [|by rewrite app_nil_r].
    unfold events_by. simpl. apply events_of_snoc.
  - split; [|by rewrite app_nil_r]. unfold pc_of. rewrite Htk. simpl.
    by rewrite Hat.
Qed.

(** X7. Once the receive loop is left and [_handle] has cancelled the tasks
    of [connection_context.tasks], every task that is not over is
    cancelled, whatever ran before and whatever runs after: each one ends
    the next time the event loop resumes it, whatever the awaited call
    delivers.  It sends nothing then, except that an operation that
    iterates sends its [complete] envelope if the registry stores its
    sequence. *)
Theorem cancelled_tasks_end (schedule1 schedule2 : list action) (t : nat)
    (tk : task) (o : outcome) :
  loop (run schedule1 init) = Closing ->
  pool (run schedule2 (step CancelTasks (run schedule1 init))) !! t = Some tk ->
  pc_of (step (Resume t o)
           (run schedule2 (step CancelTasks (run schedule1 init)))) t
  = Some Done
  /\ events_by (Some t)
       (step (Resume t o)
          (run schedule2 (step CancelTasks (run schedule1 init))))
     = events_by (Some t)
         (run schedule2 (step CancelTasks (run schedule1 init)))
       ++ match at_pc tk with
          | Iterating op_id result =>
              if decide
                   (registry_get
                      (operations
                         (run schedule2
                            (step CancelTasks (run schedule1 init))))
                      op_id = Some result)
              then [EvSend (send_message_data op_id COMPLETE PNone)] else []
          | _ => []
          end.
Proof.
  intros Hloop Htk.
  assert (tracked (run schedule1 init)) as Htracked.
  { apply tracked_run. intros t' tk' Ht'. done. }
  destruct (handle_cancel_all _ Htracked) as [Hl Hall].
  assert (step CancelTasks (run schedule1 init)
          = handle_cancel (run schedule1 init)) as E
    by (simpl; by rewrite Hloop).
  rewrite E in *.
  destruct (all_cancelled_run schedule2 _ Hl Hall) as [_ Hall2].
  assert (at_pc tk = Done \/ at_pc tk <> Done) as [Hd|Hd]
    by (destruct (at_pc tk); eauto).
  - assert (pc_of (run schedule2 (handle_cancel (run schedule1 init))) t
            = Some Done) as Hpc.
    { unfold pc_of. rewrite Htk. simpl. by rewrite Hd. }
    simpl. rewrite (resume_done format_error loads t o _ Hpc), Hd.
    by rewrite app_nil_r.
  - apply resume_cancelled; [done|]. by apply (Hall2 t tk).
Qed.

Lemma unsubscribe_all_aclosed op_ids s operation :
  operation ∈ aclosed s ->
  operation ∈ aclosed (foldl (fun s op_id => unsubscribe None op_id s) s op_ids).
Proof.
  revert s. induction op_ids as [|op_id op_ids IH]; intros s Hin; [done|].
  simpl. apply IH. unfold unsubscribe, aclose.
  case_match; [|done]. simpl. by right.
Qed.

Lemma aclosed_step a s operation :
  operation ∈ aclosed s -> operation ∈ aclosed (step a s).
Proof.
  intros Hin. destruct a as [message| | |t o]; simpl.
  - by destruct (loop s).
  - destruct (loop s); [|done..]. unfold handle_connection_closed, on_close.
    simpl. destruct (operations s); [done|].
    by apply unsubscribe_all_aclosed.
  - by destruct (loop s).
  - destruct (resume_aclosed t o s) as [->|[h ->]]; [done|by right].
Qed.

(** An operation whose [async for] takes no more values stays so. *)
Lemma stopped_step a s t op_id result flag :
  pool s !! t = Some (Task (Iterating op_id result) flag) ->
  flag = true \/ result ∈ aclosed s ->
  taken t a s = []
  /\ (pc_of (step a s) t = Some Done
      \/ exists flag',
           pool (step a s) !! t = Some (Task (Iterating op_id result) flag')
           /\ (flag' = true \/ result ∈ aclosed (step a s))).
Proof.
  intros Htk Hstop.
  assert (consumes s t = false) as Hc.
  { unfold consumes. rewrite Htk. destruct flag; [done|].
    destruct Hstop as [|Hin]; [done|]. by rewrite bool_decide_eq_true_2. }
  assert (taken t a s = []) as Htaken.
  { destruct a as [| | |t' o]; try done. destruct o; try done. simpl.
    by rewrite Hc, andb_false_r. }
  split; [done|].
  assert (flag = true \/ result ∈ aclosed (step a s)) as Hstop'.
  { destruct Hstop as [|Hin]; [by left|right; by apply aclosed_step]. }
  destruct (decide (actor a = Some t)) as [E|Hne].
  - destruct a as [| | |t' o]; try discriminate. simpl in E. injection E as ->.
    change (step (Resume t o) s) with (resumed t o s) in *.
    destruct (resume_iterating format_error loads t o s _ _ _ Htk)
      as [[E _]|[(val & _ & Hval & _)|[E _]]].
    + left. rewrite E. apply pc_of_finally. eauto.
    + by rewrite Hval in Htaken.
    + right. exists flag. rewrite E in *. by rewrite Htk.
  - destruct a as [message| | |t' o]; simpl in *.
    + right. exists flag. split; [|done].
      destruct (loop s); [|done..]. simpl. by apply lookup_app_l_Some.
    + right. exists flag. split; [|done].
      destruct (loop s); [|done..].
      by destruct (handle_connection_closed_frame s) as (-> & _).
    + right. destruct (loop s); [by eauto| |by eauto].
      unfold handle_cancel. simpl. rewrite list_lookup_imap, Htk. simpl.
      case_bool_decide; eauto.
    + right. exists flag. split; [|done].
      assert (t' <> t) by (intros ->; by apply Hne).
      destruct (resume_pool format_error loads t' o s) as [->|[c ->]]; [done|].
      by rewrite list_lookup_alter_ne.
Qed.

(** X9. Once [aclose] ran on the sequence of an operation, or once the task
    of the operation is cancelled, the operation never sends another [next]
    envelope, whatever its sequence delivers and whatever else happens on
    the connection; and the next time it is resumed, it ends. *)
Theorem no_next_after_aclose (s : state) (t : nat) (op_id : option string)
    (result : handle) (flag : bool) (schedule : list action) (o : outcome) :
  pool s !! t = Some (Task (Iterating op_id result) flag) ->
  flag = true \/ result ∈ aclosed s ->
  envelopes NEXT (Some t) (run schedule s) = envelopes NEXT (Some t) s
  /\ produced format_error loads t schedule s = []
  /\ pc_of (step (Resume t o) s) t = Some Done.
Proof.
  intros Htk Hstop. split_and!.
  - revert s flag Htk Hstop.
    induction schedule as [|a schedule IH]; intros s flag Htk Hstop; [done|].
    simpl.
    assert (pc_of s t = Some (Iterating op_id result)) as Hpc
      by (unfold pc_of; by rewrite Htk).
    destruct (next_envelopes_step format_error loads a s t _ _ Hpc) as [_ E].
    destruct (stopped_step a s t _ _ _ Htk Hstop)
      as [Htaken [Hd|(flag' & Htk' & Hstop')]].
    + unfold envelopes in *.
      destruct (run_done format_error loads schedule _ t Hd) as [_ ->].
      by rewrite E, Htaken, app_nil_r.
    + rewrite (IH _ _ Htk' Hstop'), E, Htaken. by rewrite app_nil_r.
  - revert s flag Htk Hstop.
    induction schedule as [|a schedule IH]; intros s flag Htk Hstop; [done|].
    simpl.
    destruct (stopped_step a s t _ _ _ Htk Hstop)
      as [-> [Hd|(flag' & Htk' & Hstop')]]; simpl.
    + by apply produced_done.
    + by eapply IH.
  - change (step (Resume t o) s) with (resumed t o s).
    assert (taken t (Resume t o) s = []) as Htaken
      by by destruct (stopped_step (Resume t o) s t _ _ _ Htk Hstop).
    destruct (resume_iterating format_error loads t o s _ _ _ Htk)
      as [[E _]|[(val & _ & Hval & _)|[E _]]].
    + rewrite E. apply pc_of_finally. eauto.
    + by rewrite Hval in Htaken.
    + exfalso. revert E. unfold resume. rewrite Htk. simpl.
      destruct flag; simpl.
      * intros E. assert (pc_of (on_subscribe_finally t op_id result s) t
                          = Some Done) as Hd by (apply pc_of_finally; eauto).
        rewrite E in Hd. unfold pc_of in Hd. by rewrite Htk in Hd.
      * destruct Hstop as [|Hin]; [done|].
        rewrite bool_decide_eq_true_2 by done.
        intros E. assert (pc_of (on_subscribe_finally t op_id result s) t
                          = Some Done) as Hd by (apply pc_of_finally; eauto).
        rewrite E in Hd. unfold pc_of in Hd. by rewrite Htk in Hd.
Qed.

Lemma step_subscribe message op_id payload :
  has_subscription_operation payload = true ->
  task_step (Pending message) [EvSubscribe payload] (AwaitEngine op_id).
Proof.
  intros E. pose proof (step_engine message op_id payload) as H.
  unfold engine_call in H. by rewrite E in H.
Qed.

Lemma step_execute message op_id payload :
  has_subscription_operation payload = false ->
  task_step (Pending message) [EvExecute payload] (AwaitEngine op_id).
Proof.
  intros E. pose proof (step_engine message op_id payload) as H.
  unfold engine_call in H. by rewrite E in H.
Qed.

(** One resumption of a task, exactly. *)
Lemma resume_exact t o s tk :
  pool s !! t = Some tk ->
  exists c es,
    pc_of (resumed t o s) t = Some c
    /\ events_by (Some t) (resumed t o s) = events_by (Some t) s ++ es
    /\ task_step (at_pc tk) es c.
Proof.
  intros Htk. unfold resume. rewrite Htk.
  assert (pc_of s t = Some (at_pc tk)) as Hpc by (unfold pc_of; by rewrite Htk).
  destruct (at_pc tk) eqn:Hat; unfold_handlers; repeat case_match.
  all: eexists _, _; split_and!;
    [ first [ exact Hpc
            | unfold pc_of; simpl; rewrite list_lookup_alter_eq, Htk;
              reflexivity ]
    | unfold events_by; simpl; rewrite ?events_of_snoc, <- ?app_assoc;
      first [ reflexivity | symmetry; apply app_nil_r ]
    | try rewrite Hat;
      first [ by apply step_nowhere
            | by apply step_subscribe
            | by apply step_execute
            | by econstructor
            | by apply step_ends; econstructor ] ].
Qed.

Lemma running_pending_inv message es :
  running (Pending message) es -> es = [].
Proof. by inversion 1. Qed.

Lemma running_engine_inv op_id es :
  running (AwaitEngine op_id) es -> exists payload, es = [engine_call payload].
Proof. inversion 1. eauto. Qed.

Lemma running_iterating_inv op_id result es :
  running (Iterating op_id result) es ->
  exists payload payloads, es = engine_call payload :: next_events op_id payloads.
Proof. inversion 1. eauto. Qed.

Lemma log_shape_step a s : log_shape s -> log_shape (step a s).
Proof.
  intros Hs t. specialize (Hs t).
  destruct (decide (actor a = Some t)) as [E|Hne].
  - destruct a as [| | |t' o]; try discriminate. simpl in E. injection E as ->.
    simpl. destruct (pool s !! t) as [tk|] eqn:Htk.
    + destruct (resume_exact t o s tk Htk) as (c & es & -> & -> & Hm).
      unfold pc_of in Hs. rewrite Htk in Hs. simpl in Hs.
      destruct (at_pc tk) eqn:Hat; inversion Hm; subst; rewrite ?app_nil_r;
        try done.
      * apply running_pending_inv in Hs as ->. constructor.
      * apply running_pending_inv in Hs as ->. constructor.
      * by exists (Pending message), (events_by (Some t) s), es.
      * by exists AwaitOnConnect, (events_by (Some t) s), es.
      * apply running_engine_inv in Hs as [payload ->].
        apply (running_iterating _ _ _ []).
      * by exists (AwaitEngine op_id), (events_by (Some t) s), es.
      * apply running_iterating_inv in Hs as (payload0 & payloads & ->).
        simpl.
        replace (next_events op_id payloads
                 ++ [EvSend (send_message_data op_id NEXT payload)])
          with (next_events op_id (payloads ++ [payload]))
          by (unfold next_events; by rewrite fmap_app).
        constructor.
      * by exists (Iterating op_id result), (events_by (Some t) s), es.
      * match goal with H : task_ends Done _ |- _ => inversion H end.
        by rewrite app_nil_r.
    + unfold resume. by rewrite Htk.
  - rewrite events_by_step_other by done.
    destruct (pool s !! t) as [tk|] eqn:Htk.
    + rewrite pc_of_step_other by eauto. done.
    + unfold pc_of in Hs. rewrite Htk in Hs. simpl in Hs.
      destruct (pc_of_step_new format_error loads a s t Hne Htk)
        as [->|[message ->]]; [done|].
      rewrite Hs. constructor.
Qed.

Lemma log_shape_run schedule s : log_shape s -> log_shape (run schedule s).
Proof.
  revert s. induction schedule as [|a schedule IH]; intros s Hs; [done|].
  simpl. by apply IH, log_shape_step.
Qed.

Lemma log_shape_init : log_shape init.
Proof. intros t. reflexivity. Qed.

(** X10. Everything a task has done, at any time on a connection that starts
    with [on_open]: nothing before its first suspension; only the call of
    [on_connect] while it waits for it; only the one call of the engine
    while it waits for it; that call and then [next] envelopes of its own id
    while it iterates; and, once it is over, one of these followed by what
    its last resumption did: nothing, an [error] envelope without id, a
    [pong], an [aclose] with [on_operation_complete], a close of the socket,
    a [connection_ack], a [connection_ack] and then a close of the socket
    (the [send] of the acknowledgement raised), the single [next] envelope
    of a query, or the [complete] envelope of its id.  The calls that may
    raise here are [loads], [on_connect], the engine, the result sequence
    and the [send] of the acknowledgement; an exception of another [send]
    or of [close] ends the task where the list has it end already. *)
Theorem task_life (schedule : list action) :
  log_shape (run schedule init).
Proof. apply log_shape_run, log_shape_init. Qed.

Lemma running_no_close c es code : running c es -> EvClose code ∉ es.
Proof.
  intros Hrun Hin. destruct Hrun as [| |? payload0|? ? payload0 ?].
  - by apply elem_of_nil in Hin.
  - apply elem_of_cons in Hin as [|Hin]; [done|]. by apply elem_of_nil in Hin.
  - apply elem_of_cons in Hin as [Hin|Hin]; [|by apply elem_of_nil in Hin].
    unfold engine_call in Hin.
    by destruct (has_subscription_operation payload0).
  - apply elem_of_cons in Hin as [Hin|Hin].
    + unfold engine_call in Hin.
      by destruct (has_subscription_operation payload0).
    + by apply list_elem_of_fmap in Hin as (? & ? & _).
Qed.

Lemma task_ends_close c es code :
  task_ends c es -> EvClose code ∈ es ->
  (exists message, c = Pending message)
  /\ code = WS_ERROR_ID_ALREADY_EXISTS /\ es = [EvClose code]
  \/ c = AwaitOnConnect /\ code = WS_INTERNAL_ERROR
     /\ (es = [EvClose code]
         \/ es = [EvSend (send_message_data None CONNECTION_ACK PNone);
                  EvClose code]).
Proof.
  intros Hends Hin.
  destruct Hends; repeat (apply elem_of_cons in Hin as [Hin|Hin]);
    try (by apply elem_of_nil in Hin); try discriminate Hin;
    injection Hin as ->; eauto 6.
Qed.

(** X11. A task closes the socket in three situations only, and it is the
    last thing it does: as the one action of a task that found the id of its
    [subscribe] message in the registry, with the code of a duplicate id;
    right after its call of [on_connect], when the hook raised, with the
    code of an internal error; or after its call of [on_connect] and the
    [connection_ack] envelope that it handed to [send], when [send] raised,
    with the code of an internal error again.  A task that closes the socket
    has handed no other envelope to [send], has not called the engine, and
    is over. *)
Theorem close_ends_the_task (schedule : list action) (t : nat)
    (code : close_code) :
  EvClose code ∈ events_by (Some t) (run schedule init) ->
  pc_of (run schedule init) t = Some Done
  /\ (code = WS_ERROR_ID_ALREADY_EXISTS
      /\ events_by (Some t) (run schedule init)
         = [EvClose WS_ERROR_ID_ALREADY_EXISTS]
      \/ code = WS_INTERNAL_ERROR
         /\ exists payload,
              events_by (Some t) (run schedule init)
              = [EvOnConnect payload; EvClose WS_INTERNAL_ERROR]
              \/ events_by (Some t) (run schedule init)
                 = [EvOnConnect payload;
                    EvSend [("type", PStr "connection_ack")];
                    EvClose WS_INTERNAL_ERROR]).
Proof.
  intros Hin. pose proof (log_shape_run schedule init log_shape_init t) as Hs.
  destruct (pc_of (run schedule init) t) as [c|] eqn:Hpc.
  - assert (c = Done \/ running c (events_by (Some t) (run schedule init)))
      as [->|Hrun] by (destruct c; eauto).
    + split; [done|]. destruct Hs as (c & es0 & es1 & Hrun & Hends & E).
      rewrite E in *. apply elem_of_app in Hin as [Hin|Hin].
      { destruct (running_no_close _ _ code Hrun Hin). }
      destruct (task_ends_close _ _ _ Hends Hin)
        as [([message ->] & -> & ->)|(-> & -> & [->| ->])].
      * left. split; [done|]. by apply running_pending_inv in Hrun as ->.
      * right. split; [done|]. inversion Hrun. eauto.
      * right. split; [done|]. inversion Hrun. eauto.
    + destruct (running_no_close _ _ code Hrun Hin).
  - rewrite Hs in Hin. by apply elem_of_nil in Hin.
Qed.

(** X12. A [complete] message of the client for a running subscription, from
    its arrival to the end of the subscription: the task of the message
    closes the stored sequence and runs [on_operation_complete]; the task of
    the subscription, when it is resumed next, takes no value any more
    (whatever the sequence would deliver), removes the entry from the
    registry and sends a [complete] envelope with the id back to the
    client.  Both tasks are over. *)
Theorem client_complete_round_trip (s : state) (t1 t2 : nat)
    (message : option string) (op_id : option string)
    (payload : option OperationMessagePayload) (result : handle)
    (flag : bool) (o1 o2 : outcome) :
  pool s !! t1 = Some (Task (Pending message) false) ->
  loads message = inr (OperationMessage.make COMPLETE op_id payload) ->
  registry_get (operations s) (Some (default EmptyString op_id))
  = Some result ->
  pool s !! t2
  = Some (Task (Iterating (Some (default EmptyString op_id)) result) flag) ->
  trace (run [Resume t1 o1; Resume t2 o2] s)
  = trace s
    ++ [(Some t1, EvAclose result);
        (Some t1, EvOperationComplete (Some (default EmptyString op_id)));
        (Some t2,
         EvSend (send_message_data (Some (default EmptyString op_id))
                   COMPLETE PNone))]
  /\ registry_get (operations (run [Resume t1 o1; Resume t2 o2] s))
       (Some (default EmptyString op_id)) = None
  /\ pc_of (run [Resume t1 o1; Resume t2 o2] s) t1 = Some Done
  /\ pc_of (run [Resume t1 o1; Resume t2 o2] s) t2 = Some Done.
Proof.
  intros Ht1 Hloads Hreg Ht2.
  assert (t1 <> t2) as Hne by (intros ->; rewrite Ht1 in Ht2; discriminate).
  set (key := Some (default EmptyString op_id)) in *.
  assert (resumed t1 o1 s
          = finish t1 (emit (Some t1) (EvOperationComplete key)
                         (aclose (Some t1) result s))) as E1.
  { unfold resume. rewrite Ht1. simpl. unfold on_message. rewrite Hloads.
    simpl. unfold on_complete, unsubscribe. fold key. by rewrite Hreg. }
  assert (resumed t2 o2 (resumed t1 o1 s)
          = on_subscribe_finally t2 key result (resumed t1 o1 s)) as E2.
  { unfold resume at 1. rewrite E1 at 1. unfold finish, set_pc at 1. simpl.
    rewrite list_lookup_alter_ne, Ht2 by done. simpl.
    rewrite (bool_decide_eq_true_2 (result ∈ _)); [by rewrite orb_true_r|].
    rewrite E1. simpl. by left. }
  unfold run. simpl. change (resume format_error loads) with resumed.
  rewrite E2. unfold on_subscribe_finally.
  assert (operations (resumed t1 o1 s) = operations s) as Hops
    by by rewrite E1.
  rewrite Hops, decide_True by done.
  split_and!.
  - rewrite E1. simpl. by rewrite <- !app_assoc.
  - simpl. rewrite Hops. apply registry_get_del.
  - unfold pc_of. rewrite E1. simpl.
    rewrite list_lookup_alter_ne, list_lookup_alter_eq, Ht1 by done. done.
  - unfold pc_of. rewrite E1. simpl.
    rewrite list_lookup_alter_eq, list_lookup_alter_ne, Ht2 by done. done.
Qed.

End invariants.

(** X8. When [receive] raises [ConnectionClosed], the handler leaves the
    loop and unsubscribes every operation of the registry: each stored
    sequence is closed and [on_operation_complete] is called for its id.
    The handler does nothing else: it sends nothing, closes nothing, removes
    no entry and touches no task; the finished tasks leave
    [connection_context.tasks].  The statement does not depend on the order
    in which the operations are unsubscribed. *)
Theorem handle_connection_closed_unsubscribes_all (s : state) :
  exists new,
    trace (handle_connection_closed s) = trace s ++ new
    /\ (forall op_id operation,
          registry_get (operations s) op_id = Some operation ->
          (None, EvAclose operation) ∈ new
          /\ (None, EvOperationComplete op_id) ∈ new
          /\ operation ∈ aclosed (handle_connection_closed s))
    /\ Forall (fun x =>
                 x.1 = None
                 /\ match x.2 with
                    | EvAclose operation =>
                        exists op_id,
                          registry_get (operations s) op_id = Some operation
                    | EvOperationComplete op_id =>
                        is_Some (registry_get (operations s) op_id)
                    | _ => False
                    end) new
    /\ operations (handle_connection_closed s) = operations s
    /\ pool (handle_connection_closed s) = pool s
    /\ tasks (handle_connection_closed s)
       = filter (fun t => done s t = false) (tasks s)
    /\ loop (handle_connection_closed s) = Closing.
Proof.
  destruct (handle_connection_closed_frame s) as (Hp & Hr & Hl).
  assert (on_close (prune s)
          = foldl (fun s op_id => unsubscribe None op_id s) (prune s)
                  (operations s).*1) as E.
  { unfold on_close. simpl. by destruct (operations s). }
  destruct (unsubscribe_all_trace (operations s) (operations s).*1
              (prune s) eq_refl) as [Htrace Hclosed].
  exists (flat_map (fun op_id =>
                      match registry_get (operations s) op_id with
                      | Some operation =>
                          [(None, EvAclose operation);
                           (None, EvOperationComplete op_id)]
                      | None => []
                      end) (operations s).*1).
  split_and!; try done.
  - unfold handle_connection_closed. simpl. rewrite E. exact Htrace.
  - intros op_id operation Hget.
    pose proof (registry_get_key _ _ _ Hget) as Hkey.
    split_and!.
    + apply list_elem_of_In, in_flat_map. exists op_id.
      split; [by apply list_elem_of_In|]. rewrite Hget. by left.
    + apply list_elem_of_In, in_flat_map. exists op_id.
      split; [by apply list_elem_of_In|]. rewrite Hget. right. by left.
    + unfold handle_connection_closed. simpl.
      rewrite E. by apply (Hclosed op_id).
  - apply Forall_forall. intros x Hx.
    apply list_elem_of_In, in_flat_map in Hx as (op_id & _ & Hx).
    destruct (registry_get (operations s) op_id) as [operation|] eqn:Hget;
      [|destruct Hx].
    destruct Hx as [<-|[<-|[]]]; simpl; eauto.
  - unfold handle_connection_closed. simpl. by rewrite on_close_tasks.
Qed.

(** ** The [complete] envelope of an operation *)

Lemma has_id_send_message_data (op_id op_id' : option string)
    (type : GQLMsgType) (payload : pyval) :
  has_id op_id (send_message_data op_id' type payload)
  = bool_decide (op_id = op_id').
Proof.
  unfold has_id, send_message_data.
  destruct op_id' as [j|], (is_none payload); simpl;
    destruct op_id as [i|]; simpl; try done;
    (destruct (String.eqb_spec i j) as [->|Hne];
     [by rewrite bool_decide_eq_true_2
     |rewrite bool_decide_eq_false_2; [done|congruence]]).
Qed.

Lemma completes_emit op_id who e s :
  completes op_id (emit who e s)
  = completes op_id s
    ++ match e with
       | EvSend data =>
           if has_type COMPLETE data && has_id op_id data then [(who, data)]
           else []
       | _ => []
       end.
Proof.
  unfold completes. simpl. rewrite omap_app. f_equal.
  unfold complete_for. simpl. destruct e; try done.
  by destruct (has_type COMPLETE data && has_id op_id data).
Qed.

Lemma completes_trace op_id s s' :
  trace s' = trace s -> completes op_id s' = completes op_id s.
Proof. unfold completes. by intros ->. Qed.

Lemma completes_set_pc op_id t c s :
  completes op_id (set_pc t c s) = completes op_id s.
Proof. done. Qed.

Lemma completes_unsubscribe op_id who op_id' s :
  completes op_id (unsubscribe who op_id' s) = completes op_id s
  /\ allocated (unsubscribe who op_id' s) = allocated s.
Proof.
  unfold unsubscribe, aclose. case_match; [|done].
  rewrite !completes_emit, !app_nil_r. done.
Qed.

Lemma completes_on_close op_id s :
  completes op_id (on_close s) = completes op_id s
  /\ allocated (on_close s) = allocated s.
Proof.
  unfold on_close. destruct (operations s) as [|entry r]; [done|].
  generalize ((entry :: r).*1). intros op_ids. revert s.
  induction op_ids as [|op_id' op_ids IH]; intros s; [done|].
  simpl. destruct (IH (unsubscribe None op_id' s)) as [-> ->].
  apply completes_unsubscribe.
Qed.

Section completion.

Context {GraphQLError : Type}.
Context (format_error : GraphQLError -> pyval).
Context (loads : option string -> Exception + OperationMessage.t).

Abbreviation resumed := (resume format_error loads).
Abbreviation step := (step format_error loads).
Abbreviation run := (run format_error loads).
Abbreviation always := (always format_error loads).

Lemma allocated_finally t op_id result s :
  allocated (on_subscribe_finally t op_id result s) = allocated s.
Proof. unfold on_subscribe_finally. by case_decide. Qed.

(** The iterating tasks after a transition: those of before, and the task
    whose operation the transition registers, on a new sequence. *)
Lemma iterating_step a s t op_id result flag :
  pool (step a s) !! t = Some (Task (Iterating op_id result) flag) ->
  allocated s <= allocated (step a s)
  /\ ((exists flag0,
         pool s !! t = Some (Task (Iterating op_id result) flag0))
      \/ (result = allocated s /\ allocated (step a s) = S (allocated s)
          /\ actor a = Some t)).
Proof.
  intros Ht. destruct a as [message| | |t0 o]; simpl in *.
  - destruct (loop s); [|by eauto..]. simpl in Ht. split; [done|]. left.
    apply lookup_app_Some in Ht as [Ht|[_ Ht]]; [by eauto|].
    destruct (t - length (pool s)); [done|]. by destruct n.
  - destruct (loop s); [|by eauto..].
    destruct (handle_connection_closed_frame s) as (Hp & _).
    rewrite Hp in Ht. unfold handle_connection_closed. simpl.
    destruct (completes_on_close None (prune s)) as [_ ->]. simpl. eauto.
  - destruct (loop s); [by eauto| |by eauto].
    unfold handle_cancel in Ht. simpl in *. split; [done|]. left.
    rewrite list_lookup_imap in Ht.
    destruct (pool s !! t) as [[c flag0]|]; [|done]. simpl in Ht.
    case_bool_decide; simpl in Ht; injection Ht as -> _; eauto.
  - destruct (pool s !! t0) as [[c flag0]|] eqn:Htk;
      [|unfold resume in *; rewrite Htk in *; by eauto].
    assert (forall c',
              (forall op_id result, c' <> Iterating op_id result) ->
              alter (fun tk => Task c' (cancelled tk)) t0 (pool s) !! t
              = Some (Task (Iterating op_id result) flag) ->
              exists flag0,
                pool s !! t = Some (Task (Iterating op_id result) flag0))
      as Halter.
    { intros c' Hc' Hl. destruct (decide (t0 = t)) as [->|Hne].
      - rewrite list_lookup_alter_eq, Htk in Hl. simpl in Hl.
        injection Hl as Hl _. by destruct (Hc' op_id result).
      - rewrite list_lookup_alter_ne in Hl by done. eauto. }
    destruct c as [message| |op_id0|op_id0 result0|].
    + destruct (resume_early format_error loads t0 o s _ Htk)
        as (_ & -> & Hp); [done..|]. split; [done|]. left.
      destruct Hp as [Hp|(c & Hc & Hp)]; rewrite Hp in Ht; eauto.
    + destruct (resume_early format_error loads t0 o s _ Htk)
        as (_ & -> & Hp); [done..|]. split; [done|]. left.
      destruct Hp as [Hp|(c & Hc & Hp)]; rewrite Hp in Ht; eauto.
    + destruct (resume_await_engine format_error loads t0 o s _ _ Htk)
        as [(_ & -> & Hp)|(-> & -> & E)].
      * split; [done|]. left.
        destruct Hp as [Hp|Hp]; rewrite Hp in Ht; [by eauto|].
        by apply (Halter Done).
      * rewrite E in *. simpl in *. split; [lia|].
        destruct (decide (t0 = t)) as [->|Hne].
        -- right. rewrite list_lookup_alter_eq, Htk in Ht. simpl in Ht.
           by injection Ht as _ <-.
        -- left. rewrite list_lookup_alter_ne in Ht by done. eauto.
    + destruct (resume_iterating format_error loads t0 o s _ _ _ Htk)
        as [[E _]|[(val & _ & _ & E)|[E _]]]; rewrite E in *.
      * rewrite allocated_finally. split; [done|]. left.
        apply (Halter Done); [done|].
        unfold on_subscribe_finally in Ht. by case_decide.
      * eauto.
      * eauto.
    + destruct (resume_early format_error loads t0 o s _ Htk)
        as (_ & -> & Hp); [done..|]. split; [done|]. left.
      destruct Hp as [Hp|(c & Hc & Hp)]; rewrite Hp in Ht; eauto.
Qed.

Lemma fresh_step a s : fresh s -> fresh (step a s).
Proof.
  intros Hs t op_id result flag Ht.
  destruct (iterating_step a s t _ _ _ Ht)
    as [Hle [[flag0 Hold]|(-> & Hnew & Ha)]].
  - destruct (Hs _ _ _ _ Hold) as [Hlt Hone]. split; [lia|].
    intros t' op_id' flag' Ht'.
    destruct (iterating_step a s t' _ _ _ Ht')
      as [_ [[flag0' Hold']|(-> & _)]]; [by eauto|lia].
  - split; [lia|]. intros t' op_id' flag' Ht'.
    destruct (iterating_step a s t' _ _ _ Ht')
      as [_ [[flag0' Hold']|(_ & _ & Ha')]]; [|congruence].
    destruct (Hs _ _ _ _ Hold') as [Hlt _]. lia.
Qed.

Lemma fresh_run schedule s : fresh s -> fresh (run schedule s).
Proof.
  revert s. induction schedule as [|a schedule IH]; intros s Hs; [done|].
  simpl. by apply IH, fresh_step.
Qed.

Lemma fresh_init : fresh init.
Proof. intros t op_id result flag Ht. done. Qed.

(** An entry of the registry after a transition was there before, or holds
    the sequence that the engine has just handed out. *)
Lemma registry_step a s op_id result :
  allocated s <= allocated (step a s)
  /\ (registry_get (operations (step a s)) op_id = Some result ->
      registry_get (operations s) op_id = Some result
      \/ result = allocated s).
Proof.
  destruct a as [message| | |t o]; simpl.
  - destruct (loop s); eauto.
  - destruct (loop s); [|by eauto..].
    destruct (handle_connection_closed_frame s) as (_ & -> & _).
    unfold handle_connection_closed. simpl.
    destruct (completes_on_close None (prune s)) as [_ ->]. simpl. eauto.
  - destruct (loop s); eauto.
  - destruct (pool s !! t) as [[c flag]|] eqn:Htk;
      [|unfold resume; rewrite Htk; by eauto].
    destruct c as [message| |op_id0|op_id0 result0|].
    + destruct (resume_early format_error loads t o s _ Htk)
        as (-> & -> & _); by eauto.
    + destruct (resume_early format_error loads t o s _ Htk)
        as (-> & -> & _); by eauto.
    + destruct (resume_await_engine format_error loads t o s _ _ Htk)
        as [(-> & -> & _)|(_ & _ & ->)]; [by eauto|].
      simpl. split; [lia|]. rewrite registry_get_set.
      case_bool_decide; [|by eauto]. intros [= <-]. by right.
    + destruct (resume_iterating format_error loads t o s _ _ _ Htk)
        as [[-> _]|[(val & _ & _ & ->)|[-> _]]]; [|by eauto..].
      rewrite allocated_finally. split; [done|].
      unfold on_subscribe_finally. case_decide; [|by eauto]. simpl.
      destruct (decide (op_id0 = op_id)) as [->|Hne].
      * by rewrite registry_get_del.
      * rewrite registry_get_del_ne by done. eauto.
    + destruct (resume_early format_error loads t o s _ Htk)
        as (-> & -> & _); by eauto.
Qed.

(** A sequence that the registry has lost does not come back: if the
    registry stores it in the end, it stored it all along. *)
Lemma registry_kept schedule s op_id result :
  result < allocated s ->
  registry_get (operations (run schedule s)) op_id = Some result ->
  registry_get (operations s) op_id = Some result.
Proof.
  revert s. induction schedule as [|a schedule IH]; intros s Hlt Hget; [done|].
  simpl in Hget. destruct (registry_step a s op_id result) as [Hle Hstep].
  apply IH in Hget; [|lia]. destruct (Hstep Hget) as [Hold | ->]; [done|lia].
Qed.

(** A transition hands a [complete] envelope for an id to [send] only in
    the [finally] clause of the operation whose sequence the registry
    stores under the id. *)
Lemma completes_step a s op_id :
  completes op_id (step a s) = completes op_id s
  \/ exists t result flag,
       actor a = Some t
       /\ pool s !! t = Some (Task (Iterating op_id result) flag)
       /\ registry_get (operations s) op_id = Some result
       /\ step a s = on_subscribe_finally t op_id result s.
Proof.
  destruct a as [message| | |t o]; simpl.
  - left. by destruct (loop s).
  - left. destruct (loop s); [|done..].
    unfold handle_connection_closed.
    rewrite (completes_trace op_id (on_close (prune s)) (set_loop Closing (on_close (prune s)))) by done.
    destruct (completes_on_close op_id (prune s)) as [-> _]. done.
  - left. by destruct (loop s).
  - destruct (pool s !! t) as [[c flag]|] eqn:Htk;
      [|unfold resume; rewrite Htk; by eauto].
    destruct c as [message| |op_id0|op_id0 result0|].
    + left. unfold resume. rewrite Htk. simpl. unfold_handlers.
      repeat case_match; simpl;
        rewrite ?completes_set_pc, ?completes_emit,
          ?has_type_send_message_data, ?app_nil_r;
        done.
    + left. unfold resume. rewrite Htk. simpl. unfold_handlers.
      repeat case_match; simpl;
        rewrite ?completes_set_pc, ?completes_emit,
          ?has_type_send_message_data, ?app_nil_r;
        done.
    + left. unfold resume. rewrite Htk. simpl. unfold_handlers.
      repeat case_match; simpl;
        rewrite ?completes_set_pc, ?completes_emit,
          ?has_type_send_message_data, ?app_nil_r;
        done.
    + destruct (resume_iterating format_error loads t o s _ _ _ Htk)
        as [[E _]|[(val & _ & _ & E)|[E _]]]; rewrite E.
      * destruct (decide (registry_get (operations s) op_id0 = Some result0))
          as [Hstored|Hstored].
        -- destruct (decide (op_id0 = op_id)) as [->|Hne]; [right; by eauto 8|].
           left. unfold on_subscribe_finally. rewrite decide_True by done.
           unfold finish, send_message, send.
           rewrite completes_set_pc, completes_emit, has_id_send_message_data.
           rewrite (bool_decide_eq_false_2 (op_id = op_id0)) by congruence.
           by rewrite andb_false_r, app_nil_r.
        -- left. unfold on_subscribe_finally. by rewrite decide_False.
      * left. unfold send_execution_result, send_message, send.
        rewrite completes_emit, has_type_send_message_data. simpl.
        by rewrite app_nil_r.
      * by left.
    + left. unfold resume. by rewrite Htk.
Qed.

(** While an operation runs and the registry stores its sequence, nobody
    hands a [complete] envelope for its id to [send]. *)
Lemma completes_window schedule s t op_id result flag :
  fresh s ->
  pool s !! t = Some (Task (Iterating op_id result) flag) ->
  pc_of (run schedule s) t = Some (Iterating op_id result) ->
  registry_get (operations (run schedule s)) op_id = Some result ->
  completes op_id (run schedule s) = completes op_id s.
Proof.
  revert s flag.
  induction schedule as [|a schedule IH]; intros s flag Hs Ht Hpc Hget; [done|].
  simpl in *. destruct (Hs _ _ _ _ Ht) as [Hlt Hone].
  assert (pc_of s t = Some (Iterating op_id result)) as Hpc0
    by (unfold pc_of; by rewrite Ht).
  assert (pc_of (step a s) t = Some (Iterating op_id result)) as Hpc1.
  { destruct (next_envelopes_step format_error loads a s t _ _ Hpc0)
      as [[Hi|Hd] _]; [done|].
    destruct (run_done format_error loads schedule _ t Hd) as [Hd' _].
    congruence. }
  assert (exists flag',
            pool (step a s) !! t = Some (Task (Iterating op_id result) flag'))
    as [flag' Ht'].
  { unfold pc_of in Hpc1.
    destruct (pool (step a s) !! t) as [[c flag']|]; [|done].
    simpl in Hpc1. injection Hpc1 as ->. eauto. }
  rewrite (IH _ _ (fresh_step a s Hs) Ht' Hpc Hget).
  destruct (completes_step a s op_id)
    as [E|(t' & result' & flag0 & Ha & Ht0 & Hstored & E)]; [done|].
  pose proof (registry_kept (a :: schedule) s op_id result Hlt Hget) as Hkept.
  assert (result' = result) as -> by congruence.
  rewrite (Hone _ _ _ Ht0) in E.
  assert (pc_of (step a s) t = Some Done) as Hd
    by (rewrite E; apply pc_of_finally; eauto).
  congruence.
Qed.

(** Without an entry under an id in the registry, nobody hands a [complete]
    envelope for the id to [send]. *)
Lemma completes_unregistered schedule s op_id :
  always (fun s => registry_get (operations s) op_id = None) schedule s ->
  completes op_id (run schedule s) = completes op_id s.
Proof.
  revert s. induction schedule as [|a schedule IH]; intros s Hs; [done|].
  simpl in *. destruct Hs as [Hnone Hs]. rewrite (IH _ Hs).
  destruct (completes_step a s op_id)
    as [E|(t' & result' & flag0 & _ & _ & Hstored & _)]; [done|congruence].
Qed.


End completion.


(** ** The acknowledgement that [send] refuses *)

Section handshake.

Context {GraphQLError : Type}.
Context (format_error : GraphQLError -> pyval).
Context (loads : option string -> Exception + OperationMessage.t).

Abbreviation step := (step format_error loads).
Abbreviation run := (run format_error loads).

(** X13. On a [connection_init] message whose [on_connect] returns, the
    [connection_ack] envelope is handed to [send]; if [send] raises, the
    exception is caught by the [except Exception] of [on_connection_init]:
    the socket is closed with the internal-error code, after the envelope,
    and the task is over and does nothing more.  The registry and the
    receive loop are as before. *)
Theorem on_connection_init_send_raises (s : state) (t : nat)
    (message : option string) (op_id : option string)
    (payload : option OperationMessagePayload) (o : outcome) (exc : Exception)
    (schedule : list action) :
  pool s !! t = Some (Task (Pending message) false) ->
  loads message = inr (OperationMessage.make CONNECTION_INIT op_id payload) ->
  trace (step (Resume t (SendRaises exc)) (step (Resume t o) s))
  = trace s
    ++ [(Some t, EvOnConnect payload);
        (Some t, EvSend [("type", PStr "connection_ack")]);
        (Some t, EvClose WS_INTERNAL_ERROR)]
  /\ pc_of (step (Resume t (SendRaises exc)) (step (Resume t o) s)) t
     = Some Done
  /\ operations (step (Resume t (SendRaises exc)) (step (Resume t o) s))
     = operations s
  /\ loop (step (Resume t (SendRaises exc)) (step (Resume t o) s)) = loop s
  /\ events_by (Some t)
       (run schedule (step (Resume t (SendRaises exc)) (step (Resume t o) s)))
     = events_by (Some t)
         (step (Resume t (SendRaises exc)) (step (Resume t o) s)).
Proof.
  intros Htk He.
  assert (step (Resume t o) s
          = set_pc t AwaitOnConnect (emit (Some t) (EvOnConnect payload) s)) as E.
  { simpl. unfold resume. rewrite Htk. simpl.
    unfold on_message. by rewrite He. }
  assert (pool (step (Resume t o) s) !! t = Some (Task AwaitOnConnect false))
    as Htk'.
  { rewrite E. simpl. by rewrite list_lookup_alter_eq, Htk. }
  assert (step (Resume t (SendRaises exc)) (step (Resume t o) s)
          = finish t
              (close (Some t) WS_INTERNAL_ERROR
                 (send_message (Some t) None CONNECTION_ACK PNone
                    (step (Resume t o) s)))) as E'.
  { unfold step at 1. unfold resume. by rewrite Htk'. }
  assert (pc_of (step (Resume t (SendRaises exc)) (step (Resume t o) s)) t
          = Some Done) as Hd.
  { rewrite E'. apply pc_of_set_pc. simpl. eauto. }
  split_and!.
  - rewrite E', E. simpl. by rewrite <- !app_assoc.
  - done.
  - by rewrite E', E.
  - by rewrite E', E.
  - by apply run_done.
Qed.

End handshake.

(** [on_connect] accepts the connection and the socket is gone when the
    acknowledgement is written. *)
Lemma on_connection_init_send_raises_witness :
  trace (step fixture_format_error fixture_loads
           (Resume 0 (SendRaises (Exc "Cannot write to closing transport")))
           (step fixture_format_error fixture_loads (Resume 0 ReturnsNone)
              (run fixture_format_error fixture_loads
                 [Receive (Some connection_init_text)] init)))
  = [(None, EvOnOpen); (Some 0, EvOnConnect None);
     (Some 0, EvSend [("type", PStr "connection_ack")]);
     (Some 0, EvClose WS_INTERNAL_ERROR)].
Proof.
  pose proof (on_connection_init_send_raises fixture_format_error
                fixture_loads
                (run fixture_format_error fixture_loads
                   [Receive (Some connection_init_text)] init)
                0 (Some connection_init_text) None None ReturnsNone
                (Exc "Cannot write to closing transport") []
                ltac:(evaluate) ltac:(evaluate)) as (H & _).
  rewrite H. evaluate.
Defined.

(** * Scenarios of the further properties *)

(** A [ping] message, alone on a new connection: the [pong] envelope, with
    neither id nor payload, is all the connection sends. *)
Lemma on_ping_pong_witness :
  trace (step fixture_format_error fixture_loads_control (Resume 0 ReturnsNone)
           (run fixture_format_error fixture_loads_control
              [Receive (Some ping_text)] init))
  = [(None, EvOnOpen); (Some 0, EvSend [("type", PStr "pong")])].
Proof.
  pose proof (on_ping_pong fixture_format_error fixture_loads_control
                (run fixture_format_error fixture_loads_control
                   [Receive (Some ping_text)] init)
                0 (Some ping_text) (Some "7") None ReturnsNone []
                ltac:(evaluate) ltac:(evaluate)) as (H & _).
  rewrite H. evaluate.
Defined.

(** A [pong] message of the client is decoded and dropped. *)
Lemma on_message_unhandled_type_witness :
  trace (step fixture_format_error fixture_loads_control (Resume 0 ReturnsNone)
           (run fixture_format_error fixture_loads_control
              [Receive (Some pong_text)] init))
  = [(None, EvOnOpen)]
  /\ pc_of (run fixture_format_error fixture_loads_control []
              (step fixture_format_error fixture_loads_control
                 (Resume 0 ReturnsNone)
                 (run fixture_format_error fixture_loads_control
                    [Receive (Some pong_text)] init))) 0
     = Some Done.
Proof.
  assert (OperationMessage.type (OperationMessage.make PONG None None)
          ∉ [CONNECTION_INIT; SUBSCRIBE; COMPLETE; PING]) as Hpong.
  { intros H. repeat (apply elem_of_cons in H as [H|H]; [discriminate H|]).
    by apply elem_of_nil in H. }
  pose proof (on_message_unhandled_type fixture_format_error
                fixture_loads_control
                (run fixture_format_error fixture_loads_control
                   [Receive (Some pong_text)] init)
                0 (Some pong_text) (OperationMessage.make PONG None None)
                ReturnsNone [] ltac:(evaluate) ltac:(evaluate) Hpong)
    as (H & _ & _ & _ & _ & Hpc).
  split; [|exact Hpc]. rewrite H. evaluate.
Defined.

(** A [complete] message for the one subscription: its sequence is closed
    and [on_operation_complete] runs, under the name of the task of the
    message; the registry keeps the entry. *)
Lemma on_complete_message_witness :
  aclosed (step fixture_format_error fixture_loads (Resume 1 ReturnsNone)
             (run fixture_format_error fixture_loads
                (one_subscription ++ [Receive (Some complete_text)]) init))
  = [0]
  /\ operations (step fixture_format_error fixture_loads (Resume 1 ReturnsNone)
                   (run fixture_format_error fixture_loads
                      (one_subscription ++ [Receive (Some complete_text)])
                      init))
     = [(Some "1", 0)].
Proof.
  pose proof (on_complete_message fixture_format_error fixture_loads
                (run fixture_format_error fixture_loads
                   (one_subscription ++ [Receive (Some complete_text)]) init)
                1 (Some complete_text) (Some "1") None ReturnsNone []
                ltac:(evaluate) ltac:(evaluate)) as (Ho & _ & H).
  assert (registry_get
            (operations
               (run fixture_format_error fixture_loads
                  (one_subscription ++ [Receive (Some complete_text)]) init))
            (Some (default EmptyString (Some "1"))) = Some 0) as Hstored
    by evaluate.
  rewrite Hstored in H. destruct H as [Ha _].
  rewrite Ha, Ho. split; evaluate.
Defined.

(** The one subscription after the connection is lost and the tasks are
    cancelled: resumed, it sends its [complete] envelope and is over. *)
Lemma cancelled_tasks_end_witness :
  pc_of (step fixture_format_error fixture_loads (Resume 0 ReturnsNone)
           (run fixture_format_error fixture_loads []
              (step fixture_format_error fixture_loads CancelTasks
                 (run fixture_format_error fixture_loads
                    (one_subscription ++ [ConnectionClosed]) init)))) 0
  = Some Done
  /\ events_by (Some 0)
       (step fixture_format_error fixture_loads (Resume 0 ReturnsNone)
          (run fixture_format_error fixture_loads []
             (step fixture_format_error fixture_loads CancelTasks
                (run fixture_format_error fixture_loads
                   (one_subscription ++ [ConnectionClosed]) init))))
     = [EvSubscribe feed_payload;
        EvSend [("type", PStr "complete"); ("id", PStr "1")]].
Proof.
  pose proof (cancelled_tasks_end fixture_format_error fixture_loads
                (one_subscription ++ [ConnectionClosed]) [] 0
                (Task (Iterating (Some "1") 0) true) ReturnsNone
                ltac:(evaluate) ltac:(evaluate)) as (Hpc & Hev).
  split; [exact Hpc|]. rewrite Hev. evaluate.
Defined.

(** The one subscription after a [complete] message of the client: what its
    sequence still delivers is not sent. *)
Lemma no_next_after_aclose_witness :
  envelopes NEXT (Some 0)
    (run fixture_format_error fixture_loads
       [Resume 0 (ReturnsResult (feed 1)); Resume 0 (ReturnsResult (feed 2))]
       (run fixture_format_error fixture_loads
          (one_subscription
           ++ [Receive (Some complete_text); Resume 1 ReturnsNone]) init))
  = [].
Proof.
  pose proof (no_next_after_aclose fixture_format_error fixture_loads
                (run fixture_format_error fixture_loads
                   (one_subscription
                    ++ [Receive (Some complete_text); Resume 1 ReturnsNone])
                   init)
                0 (Some "1") 0 false
                [Resume 0 (ReturnsResult (feed 1));
                 Resume 0 (ReturnsResult (feed 2))]
                ReturnsNone ltac:(evaluate)
                ltac:(right; vm_compute; apply list_elem_of_here))
    as (H & _).
  rewrite H. evaluate.
Defined.

(** [on_connect] raises: the task closes the socket and is over. *)
Lemma close_ends_the_task_witness :
  pc_of (run fixture_format_error fixture_loads
           [Receive (Some connection_init_text); Resume 0 ReturnsNone;
            Resume 0 (Raises (Exc "refused"))] init) 0
  = Some Done.
Proof.
  exact (proj1 (close_ends_the_task fixture_format_error fixture_loads
                  [Receive (Some connection_init_text); Resume 0 ReturnsNone;
                   Resume 0 (Raises (Exc "refused"))] 0 WS_INTERNAL_ERROR
                  ltac:(vm_compute;
                        apply list_elem_of_further, list_elem_of_here))).
Defined.

(** The one subscription, a [complete] message of the client, and a value
    that the sequence delivers too late. *)
Lemma client_complete_round_trip_witness :
  trace (run fixture_format_error fixture_loads
           [Resume 1 ReturnsNone; Resume 0 (ReturnsResult (feed 1))]
           (run fixture_format_error fixture_loads
              (one_subscription ++ [Receive (Some complete_text)]) init))
  = [(None, EvOnOpen); (Some 0, EvSubscribe feed_payload);
     (Some 1, EvAclose 0); (Some 1, EvOperationComplete (Some "1"));
     (Some 0, EvSend [("type", PStr "complete"); ("id", PStr "1")])].
Proof.
  pose proof (client_complete_round_trip fixture_format_error fixture_loads
                (run fixture_format_error fixture_loads
                   (one_subscription ++ [Receive (Some complete_text)]) init)
                1 0 (Some complete_text) (Some "1") None 0 false
                ReturnsNone (ReturnsResult (feed 1))
                ltac:(evaluate) ltac:(evaluate) ltac:(evaluate)
                ltac:(evaluate)) as (H & _).
  rewrite H. evaluate.
Defined.

(** The entry of the one subscription has its owner. *)
Lemma registry_entries_owned_witness :
  exists t flag,
    pool (run fixture_format_error fixture_loads one_subscription init) !! t
    = Some (Task (Iterating (Some "1") 0) flag).
Proof.
  exact (proj1 (registry_entries_owned fixture_format_error fixture_loads
                  one_subscription) (Some "1") 0 ltac:(evaluate)).
Defined.

(** The connection is lost while the one subscription runs. *)
Lemma handle_connection_closed_unsubscribes_all_witness :
  0 ∈ aclosed (handle_connection_closed
                 (run fixture_format_error fixture_loads one_subscription
                    init)).
Proof.
  destruct (handle_connection_closed_unsubscribes_all
              (run fixture_format_error fixture_loads one_subscription init))
    as (new & _ & Hin & _).
  apply (Hin (Some "1")). evaluate.
Defined.
